(** * Quantum: time quanta and their disjoint cover

    A shallow embedding of the Quantum library (quantum.js and its later
    copies): the [Quantum] constructor, the pairwise operations of
    [QuantumSet] ([compare], [intersects], [merge]) and the two operations
    that work on the backing array ([monotonic], [disjoint]).

    Arrays are mutable JavaScript objects, so they live in a store and are
    named by their location; [slice] allocates, [sort] and [push] update in
    place.  [Array.prototype.sort] belongs to the host engine: the
    operations take it as an argument, and two engines' insertion sorts are
    given as instances. *)

From Stdlib Require Import ZArith List Bool String Lia Sorted Permutation.
From stdpp Require Import base option list sorting gmap.

Local Open Scope Z_scope.

(* ===================================================================== *)
(** ** JavaScript values, as far as the constructor looks at them *)
(* ===================================================================== *)

(** Numbers: the integral milliseconds the library is used with, and NaN. *)
Inductive number : Type :=
  | NaN
  | Int (z : Z).

Inductive value : Type :=
  | VUndefined
  | VNull
  | VBool (b : bool)
  | VNumber (n : number)
  | VString (s : string)
  | VObject (id : nat).

(** ToBoolean *)
Definition ToBoolean (v : value) : bool :=
  match v with
  | VUndefined | VNull => false
  | VBool b => b
  | VNumber NaN => false
  | VNumber (Int z) => negb (z =? 0)
  | VString s => negb (String.eqb s EmptyString)
  | VObject _ => true
  end.

(** [a || b] *)
Definition js_or (a b : value) : value :=
  if ToBoolean a then a else b.

Definition zero : value := VNumber (Int 0).

(** The object [new Quantum( start, stop )] builds; an omitted argument is
    [VUndefined].

      this.start = ( start || 0 );
      this.stop = ( stop || 0 );  *)
Record QuantumObject : Type := mkQuantumObject {
  this_start : value;
  this_stop : value
}.

Definition construct_Quantum (start stop : value) : QuantumObject :=
  {| this_start := js_or start zero; this_stop := js_or stop zero |}.

(* ===================================================================== *)
(** ** Quanta with numeric bounds *)
(* ===================================================================== *)

(** The bounds are taken among the integral milliseconds; [<=], [>=],
    [Math.min], [Math.max] and [-] on them are those of [Z]. *)
Record Quantum : Type := mkQuantum {
  start : Z;
  stop : Z
}.

(** A Quantum with numeric bounds, seen as the object it is. *)
Definition to_object (q : Quantum) : QuantumObject :=
  {| this_start := VNumber (Int (start q)); this_stop := VNumber (Int (stop q)) |}.

(** [( n || 0 )] on a number. *)
Definition or_zero (n : Z) : Z := if n =? 0 then 0 else n.

(** [new Quantum( start, stop )] on two numbers. *)
Definition new_Quantum (start stop : Z) : Quantum :=
  {| start := or_zero start; stop := or_zero stop |}.

(** Quantum.prototype.millis *)
Definition Quantum_millis (q : Quantum) : Z := stop q - start q.

(** A Quantum that is an interval: its start does not come after its stop.
    The library never checks this. *)
Definition well_formed (q : Quantum) : Prop := start q <= stop q.

(* ===================================================================== *)
(** ** QuantumSet: the operations on pairs *)
(* ===================================================================== *)

(** QuantumSet.prototype.compare

      return ( q1.start >= q2.start );  *)
Definition compare (q1 q2 : Quantum) : bool := start q1 >=? start q2.

(** QuantumSet.prototype.intersects

      return ((( q1a <= q2a ) && ( q1B >= q2a )) ||
              (( q2a <= q1a) && ( q2B >= q1a )));  *)
Definition intersects (q1 q2 : Quantum) : bool :=
  let q1a := start q1 in
  let q1B := stop q1 in
  let q2a := start q2 in
  let q2B := stop q2 in
  ((q1a <=? q2a) && (q1B >=? q2a)) || ((q2a <=? q1a) && (q2B >=? q1a)).

(** QuantumSet.prototype.merge

      if ( this.intersects( q1, q2 )) {
        a = MIN( q1.start, q2.start );
        B = MAX( q1.stop, q2.stop );
        q = new Quantum( a, B );
        return [ q ];
      }
      return [ q1, q2 ];  *)
Definition merge (q1 q2 : Quantum) : list Quantum :=
  if intersects q1 q2 then
    let a := Z.min (start q1) (start q2) in
    let B := Z.max (stop q1) (stop q2) in
    let q := new_Quantum a B in
    [q]
  else [q1; q2].

(* ===================================================================== *)
(** ** The store of arrays *)
(* ===================================================================== *)

(** An array is a mutable object: the store maps its location to its
    current elements.  Quanta themselves are never assigned to after they
    are built, so an array holds them by value. *)
Definition loc : Type := nat.

Abbreviation store := (gmap loc (list Quantum)).

(** Where the model stops: a location that names no array (no program
    below produces one), and a read that yields [undefined] where a Quantum
    is needed ([set[ 0 ]] of an empty array). *)
Inductive fault : Type :=
  | NoSuchArray
  | UndefinedElement.

Inductive outcome (A : Type) : Type :=
  | Done (a : A) (h : store)
  | Stuck (f : fault).

Arguments Done {A} a h.
Arguments Stuck {A} f.

Definition M (A : Type) : Type := store -> outcome A.

Definition ret {A} (a : A) : M A := fun h => Done a h.

Definition bind {A B} (c : M A) (k : A -> M B) : M B :=
  fun h => match c h with
           | Done a h' => k a h'
           | Stuck f => Stuck f
           end.

Definition stuck {A} (f : fault) : M A := fun _ => Stuck f.

Notation "'let*' x ':=' c 'in' k" := (bind c (fun x => k))
  (at level 10, x pattern, c at level 100, k at level 200).

(** [[ x1, ..., xn ]]: a new array. *)
Definition new_Array (xs : list Quantum) : M loc :=
  fun h => let a := fresh (dom h) in Done a (<[a := xs]> h).

(** The current elements of an array. *)
Definition elements (a : loc) : M (list Quantum) :=
  fun h => match h !! a with
           | Some xs => Done xs h
           | None => Stuck NoSuchArray
           end.

Definition assign (a : loc) (xs : list Quantum) : M unit :=
  fun h => Done tt (<[a := xs]> h).

(** [a.length] *)
Definition length_of (a : loc) : M nat :=
  let* xs := elements a in ret (length xs).

(** [xs[ i ]] for an index computed as a number. *)
Definition item (xs : list Quantum) (i : Z) : M Quantum :=
  if i <? 0 then stuck UndefinedElement
  else match xs !! Z.to_nat i with
       | Some q => ret q
       | None => stuck UndefinedElement
       end.

(** [a[ i ]] *)
Definition at_index (a : loc) (i : nat) : M Quantum :=
  let* xs := elements a in item xs (Z.of_nat i).

(** [a.push( q )] *)
Definition Array_push (a : loc) (q : Quantum) : M unit :=
  let* xs := elements a in assign a (xs ++ [q]).

(** [Array.prototype.push.apply( a, args )] *)
Definition Array_push_apply (a : loc) (args : list Quantum) : M unit :=
  let* xs := elements a in assign a (xs ++ args).

(** [a.slice()]: a new array with the same elements. *)
Definition Array_slice (a : loc) : M loc :=
  let* xs := elements a in new_Array xs.

(* ===================================================================== *)
(** ** The host's Array.prototype.sort *)
(* ===================================================================== *)

(** What a comparison function hands back: [compare] answers with a
    boolean, the functions [sort] is specified for answer with a number. *)
Inductive answer : Type :=
  | ABool (b : bool)
  | ANumber (n : number).

Definition comparefn : Type := Quantum -> Quantum -> answer.

(** SortCompare: the answer after ToNumber, NaN read as +0. *)
Definition SortCompare (f : comparefn) (x y : Quantum) : Z :=
  match f x y with
  | ABool true => 1
  | ABool false => 0
  | ANumber NaN => 0
  | ANumber (Int z) => z
  end.

(** The order an engine leaves the elements in, given the comparison
    function. *)
Definition host_sort : Type := comparefn -> list Quantum -> list Quantum.

(** [a.sort( f )]: sorts [a] in place and returns it. *)
Definition Array_sort (host : host_sort) (a : loc) (f : comparefn) : M loc :=
  let* xs := elements a in
  let* _ := assign a (host f xs) in
  ret a.

(** A consistent comparison function for the values of [S] (ECMA-262,
    15.4.4.11): every answer is a number other than NaN, [=CF] is an
    equivalence, [<CF] and [>CF] are transitive. *)
Record consistent (f : comparefn) (S : list Quantum) : Prop := {
  cf_number : forall a b, a ∈ S -> b ∈ S -> exists z, f a b = ANumber (Int z);
  cf_refl : forall a, a ∈ S -> SortCompare f a a = 0;
  cf_sym : forall a b, a ∈ S -> b ∈ S ->
    SortCompare f a b = 0 -> SortCompare f b a = 0;
  cf_eq_trans : forall a b c, a ∈ S -> b ∈ S -> c ∈ S ->
    SortCompare f a b = 0 -> SortCompare f b c = 0 -> SortCompare f a c = 0;
  cf_lt_trans : forall a b c, a ∈ S -> b ∈ S -> c ∈ S ->
    SortCompare f a b < 0 -> SortCompare f b c < 0 -> SortCompare f a c < 0;
  cf_gt_trans : forall a b c, a ∈ S -> b ∈ S -> c ∈ S ->
    SortCompare f a b > 0 -> SortCompare f b c > 0 -> SortCompare f a c > 0
}.

(** The sort order: no element stands before one that compares less. *)
Definition sort_order (f : comparefn) (xs : list Quantum) : Prop :=
  StronglySorted (fun x y => ~ SortCompare f y x < 0) xs.

(** What the standard asks of an engine: the result holds the same
    elements, and is in sort order whenever the comparison function is
    consistent for them.  For any other comparison function the order is
    implementation-defined. *)
Definition ecma_sort (host : host_sort) : Prop :=
  forall f xs,
    Permutation xs (host f xs) /\
    (consistent f xs -> sort_order f (host f xs)).

(** Insertion sort, as engines run it on short arrays.  [rpre] is the
    sorted part [a[ 0 .. i-1 ]] read from the right, [element] is [a[ i ]];
    [moves tmp element] tells whether [tmp] is shifted one place right.

      for ( j = i - 1; j >= from; j-- ) {
        tmp = a[ j ];
        if ( moves( tmp, element )) { a[ j + 1 ] = tmp; } else { break; }
      }
      a[ j + 1 ] = element;  *)
Fixpoint shift (moves : Quantum -> Quantum -> bool)
    (element : Quantum) (rpre : list Quantum) : list Quantum :=
  match rpre with
  | [] => [element]
  | tmp :: rest =>
      if moves tmp element then tmp :: shift moves element rest
      else element :: tmp :: rest
  end.

Definition insertion_sort (moves : Quantum -> Quantum -> bool)
    (xs : list Quantum) : list Quantum :=
  rev (fold_left (fun rpre element => shift moves element rpre) xs []).

(** An engine that shifts [tmp] when [comparefn( tmp, element ) > 0]
    (V8's InsertionSort up to version 6.9). *)
Definition sort_gt : host_sort :=
  fun f => insertion_sort (fun tmp element => 0 <? SortCompare f tmp element).

(** An engine that shifts [tmp] when [comparefn( element, tmp ) < 0]
    (the test of a binary insertion, as in TimSort). *)
Definition sort_lt : host_sort :=
  fun f => insertion_sort (fun tmp element => SortCompare f element tmp <? 0).

(* ===================================================================== *)
(** ** QuantumSet: the operations on the backing array *)
(* ===================================================================== *)

Record QuantumSet : Type := mkQuantumSet {
  _set : loc
}.

(** QuantumSet.prototype.push

      Array.prototype.push.apply( this._set, args );  *)
Definition push (this : QuantumSet) (args : list Quantum) : M unit :=
  Array_push_apply (_set this) args.

(** function QuantumSet( args )

      this._set = [];
      if ( args ) { this.push( args ); }  *)
Definition new_QuantumSet (args : option (list Quantum)) : M QuantumSet :=
  let* a := new_Array [] in
  let this := {| _set := a |} in
  let* _ := match args with
            | Some qs => push this qs
            | None => ret tt
            end in
  ret this.

(** [this.compare], as the function handed to [sort]. *)
Definition this_compare : comparefn := fun q1 q2 => ABool (compare q1 q2).

(** QuantumSet.prototype.monotonic

      var set = this._set.slice();
      set.sort(( compare || this.compare ));
      return set;  *)
Definition monotonic (host : host_sort) (this : QuantumSet)
    (compare : option comparefn) : M loc :=
  let* set := Array_slice (_set this) in
  let* _ := Array_sort host set (default this_compare compare) in
  ret set.

(** QuantumSet.prototype.set

      if ( set ) { this._set = set; }
      return this._set;  *)
Definition QuantumSet_set (this : QuantumSet) (set : option loc)
    : QuantumSet * loc :=
  match set with
  | Some a => ({| _set := a |}, a)
  | None => (this, _set this)
  end.

(** The loop of [disjoint], with [todo] rounds left from index [i] on;
    [k] is read once before the loop, which then runs [k - 1] rounds from
    index 1.

      for ( i = 1; i < k; ++ i ) {
        $set = this.merge( q, set[ i ] );
        n = $set.length - 1;
        if ( n ) { _set.push( $set[ 0 ] ); }
        q = $set[ n ];
      }  *)
Fixpoint disjoint_loop (todo : nat) (i : nat) (set out : loc) (q : Quantum)
    : M Quantum :=
  match todo with
  | O => ret q
  | S todo' =>
      let* e := at_index set i in
      let dset := merge q e in
      let n := Z.of_nat (length dset) - 1 in
      let* _ := if n =? 0 then ret tt
                else (let* d0 := item dset 0 in Array_push out d0) in
      let* q' := item dset n in
      disjoint_loop todo' (S i) set out q'
  end.

(** QuantumSet.prototype.disjoint

      set = (( !mono ) ?  this.monotonic() : this._set );
      _set = [];
      q = set[ 0 ];
      k = set.length;
      for ( ... ) { ... }
      _set.push( q );
      return _set;

    On an empty array [set[ 0 ]] is [undefined] and the JavaScript goes on
    to return [[ undefined ]]; the model stops at that read with
    [UndefinedElement]. *)
Definition disjoint (host : host_sort) (this : QuantumSet) (mono : bool)
    : M loc :=
  let* set := if negb mono then monotonic host this None
              else ret (_set this) in
  let* out := new_Array [] in
  let* q := at_index set 0 in
  let* k := length_of set in
  let* q := disjoint_loop (k - 1) 1 set out q in
  let* _ := Array_push out q in
  ret out.

(** QuantumSet.prototype.millis

      millis = 0;
      for ( i = 0; i < k; ++ i ) { millis += s[ i ].millis(); }  *)
Definition QuantumSet_millis (this : QuantumSet) : M Z :=
  let* s := elements (_set this) in
  ret (fold_left (fun millis q => millis + Quantum_millis q) s 0).

(* ===================================================================== *)
(** ** The older copies *)
(* ===================================================================== *)

(** src/quantum.js is the oldest copy of the library.  Its [intersect] looks at
    one side only, its [merge] keeps the start of [q1], and its [monotonic]
    sorts the backing array itself. *)
Module Legacy.

(** QuantumSet.prototype.intersect

      return (( q1a <= q2a ) && ( q1B >= q2a ));  *)
Definition intersect (q1 q2 : Quantum) : bool :=
  let q1a := start q1 in
  let q1B := stop q1 in
  let q2a := start q2 in
  (q1a <=? q2a) && (q1B >=? q2a).

(** QuantumSet.prototype.merge

      if ( this.intersect( q1, q2 )) {
        a = q1.start;
        B = max( q1.stop, q2.stop );
        q = new Quantum( a, B );
        return [ q ];
      }
      return [ q1, q2 ];  *)
Definition merge (q1 q2 : Quantum) : list Quantum :=
  if intersect q1 q2 then
    let a := start q1 in
    let B := Z.max (stop q1) (stop q2) in
    let q := new_Quantum a B in
    [q]
  else [q1; q2].

(** QuantumSet.prototype.monotonic

      return this._set.sort(( compare || this.compare ));  *)
Definition monotonic (host : host_sort) (this : QuantumSet)
    (compare : option comparefn) : M loc :=
  Array_sort host (_set this) (default this_compare compare).

(** The loop of the oldest [disjoint]: the same rounds, with the [merge]
    above. *)
Fixpoint disjoint_loop (todo : nat) (i : nat) (set out : loc) (q : Quantum)
    : M Quantum :=
  match todo with
  | O => ret q
  | S todo' =>
      let* e := at_index set i in
      let dset := merge q e in
      let n := Z.of_nat (length dset) - 1 in
      let* _ := if n =? 0 then ret tt
                else (let* d0 := item dset 0 in Array_push out d0) in
      let* q' := item dset n in
      disjoint_loop todo' (S i) set out q'
  end.

(** QuantumSet.prototype.disjoint

      if ( ! monotonic ) { this._set = this.monotonic(); }
      set = this._set;
      _set = [];
      q = set[ 0 ];
      k = set.length;
      for ( ... ) { ... }
      _set.push( q );
      return _set;

    The receiver is returned beside the result, since the method assigns
    to [this._set]. *)
Definition disjoint (host : host_sort) (this : QuantumSet) (mono : bool)
    : M (QuantumSet * loc) :=
  let* this := if negb mono
               then (let* a := monotonic host this None in
                     ret {| _set := a |})
               else ret this in
  let set := _set this in
  let* out := new_Array [] in
  let* q := at_index set 0 in
  let* k := length_of set in
  let* q := disjoint_loop (k - 1) 1 set out q in
  let* _ := Array_push out q in
  ret (this, out).

(** What that loop computes, as [sweep] does for the current one. *)
Fixpoint sweep (q : Quantum) (es : list Quantum) : list Quantum * Quantum :=
  match es with
  | [] => ([], q)
  | e :: es' =>
      if intersect q e then
        sweep (mkQuantum (start q) (Z.max (stop q) (stop e))) es'
      else
        let '(pushed, q') := sweep e es' in (q :: pushed, q')
  end.

End Legacy.

(** The copy in between (src/unnamed/part_000) already has the two-sided
    [intersect], under that name, but its [merge] still keeps the start of
    [q1]. *)
Module Interim.

(** QuantumSet.prototype.merge

      if ( this.intersect( q1, q2 )) {
        a = q1.start;
        B = MAX( q1.stop, q2.stop );
        q = new Quantum( a, B );
        return [ q ];
      }
      return [ q1, q2 ];  *)
Definition merge (q1 q2 : Quantum) : list Quantum :=
  if intersects q1 q2 then
    let a := start q1 in
    let B := Z.max (stop q1) (stop q2) in
    let q := new_Quantum a B in
    [q]
  else [q1; q2].

End Interim.

(* ===================================================================== *)
(** ** Vocabulary of the properties *)
(* ===================================================================== *)

(** Every pair of neighbours [xs[ i ]], [xs[ i+1 ]] passes the test [r]. *)
Fixpoint neighbours (r : Quantum -> Quantum -> bool) (xs : list Quantum)
    : bool :=
  match xs with
  | x :: (y :: _) as tl => r x y && neighbours r tl
  | _ => true
  end.

(** Every pair of neighbours [xs[ i ]], [xs[ i+1 ]] is related by [R]. *)
Definition chain (R : Quantum -> Quantum -> Prop) (xs : list Quantum) : Prop :=
  forall i a b, xs !! i = Some a -> xs !! S i = Some b -> R a b.

(** Ordered non-decreasing by start: [xs[ i ].start <= xs[ i+1 ].start]. *)
Definition ordered_by_start : list Quantum -> Prop :=
  chain (fun a b => start a <= start b).

(** No two neighbours intersect. *)
Definition neighbours_apart : list Quantum -> Prop :=
  chain (fun a b => intersects a b = false).

(** What the loop of [disjoint] computes from the accumulator [q] and the
    elements still to come: the Quanta it pushes, and the accumulator it
    ends with. *)
Fixpoint sweep (q : Quantum) (es : list Quantum) : list Quantum * Quantum :=
  match es with
  | [] => ([], q)
  | e :: es' =>
      if intersects q e then
        sweep (mkQuantum (Z.min (start q) (start e))
                         (Z.max (stop q) (stop e))) es'
      else
        let '(pushed, q') := sweep e es' in (q :: pushed, q')
  end.

(** The array [disjoint] returns for the swept sequence [x :: es]. *)
Definition cover (x : Quantum) (es : list Quantum) : list Quantum :=
  (sweep x es).1 ++ [(sweep x es).2].

(** The sequence [disjoint] sweeps: the backing sequence itself when told
    that it is sorted, what [monotonic] returns otherwise. *)
Definition swept (host : host_sort) (mono : bool) (xs : list Quantum)
    : list Quantum :=
  if mono then xs else host this_compare xs.

(** The instants a Quantum covers, as the closed interval it stands for. *)
Definition covers (q : Quantum) (t : Z) : Prop := start q <= t <= stop q.

Definition covered (xs : list Quantum) (t : Z) : Prop :=
  Exists (fun q => covers q t) xs.

(** The values [ToBoolean] sends to [false]. *)
Definition falsy (v : value) : Prop :=
  v = VUndefined \/ v = VNull \/ v = VBool false \/
  v = VNumber NaN \/ v = VNumber (Int 0) \/ v = VString EmptyString.

(* ===================================================================== *)
(** ** The suite's use of the library, and its runner *)
(* ===================================================================== *)

(** The sum [QuantumSet.prototype.millis] accumulates over [s]. *)
Definition total_millis (s : list Quantum) : Z :=
  fold_left (fun millis q => millis + Quantum_millis q) s 0.

(** The step of "Validating the Disjoint Operation" that later tests
    build on:

      d = s.disjoint();
      s.set( d ); //< Go ahead and set the disjoint set for further processing

    with the flag left open. *)
Definition install_disjoint (host : host_sort) (s : QuantumSet) (mono : bool)
    : M QuantumSet :=
  let* d := disjoint host s mono in
  ret (QuantumSet_set s (Some d)).1.

(** A unit test: [fn] answers whether it passed, and may change the
    [World] it is run in (the suite's QuantumSet and the store, its own
    message).

      function Unit( name, fn, emsg ) { this.name = name; this.fn = fn; ... }  *)
Record Unit (World : Type) : Type := mkUnit {
  name : string;
  fn : World -> bool * World
}.

Arguments mkUnit {World} name fn.
Arguments name {World} u.
Arguments fn {World} u.

(** Suite: the registered tests and the tests that have failed. *)
Record Suite (World : Type) : Type := mkSuite {
  _tests : list (Unit World);
  _failed : list (Unit World)
}.

Arguments mkSuite {World} _tests _failed.
Arguments _tests {World} s.
Arguments _failed {World} s.

(** Suite.prototype.reset

      this._failed = [];  *)
Definition Suite_reset {World} (this : Suite World) : Suite World :=
  {| _tests := _tests this; _failed := [] |}.

(** Suite.prototype.failed *)
Definition Suite_failed {World} (this : Suite World) : list (Unit World) :=
  _failed this.

(** The loop of [Suite.prototype.test] over the tests [s] still to run:

      for ( i = 0; i < k; ++ i ) {
        t = s[ i ];
        if ( !t.fn( this )) { f.push( t ); }
      }  *)
Fixpoint Suite_test_loop {World} (s : list (Unit World))
    (f : list (Unit World)) (w : World) : list (Unit World) * World :=
  match s with
  | [] => (f, w)
  | t :: s' =>
      let '(passed, w') := fn t w in
      Suite_test_loop s' (if negb passed then f ++ [t] else f) w'
  end.

(** Suite.prototype.test

      f = this._failed;
      s = this._tests;
      for ( ... ) { ... }
      return ( f.length === 0 );  *)
Definition Suite_test {World} (this : Suite World) (w : World)
    : bool * Suite World * World :=
  let '(f, w') := Suite_test_loop (_tests this) (_failed this) w in
  ((length f =? 0)%nat, {| _tests := _tests this; _failed := f |}, w').

(** The answers the tests [s] give when run one after the other from [w]. *)
Fixpoint verdicts {World} (s : list (Unit World)) (w : World) : list bool :=
  match s with
  | [] => []
  | t :: s' => (fn t w).1 :: verdicts s' (fn t w).2
  end.

(** The tests of [s] whose answer in [bs] is [false]. *)
Fixpoint failing {World} (s : list (Unit World)) (bs : list bool)
    : list (Unit World) :=
  match s, bs with
  | t :: s', b :: bs' => if b then failing s' bs' else t :: failing s' bs'
  | _, _ => []
  end.

(* ===================================================================== *)
(** * Properties *)
(* ===================================================================== *)

(** ** The constructor *)

Lemma ToBoolean_false_iff (v : value) : ToBoolean v = false <-> falsy v.
Proof.
  unfold falsy. split.
  - destruct v as [ | | [] | [ | z] | s | id]; simpl; intros H; try discriminate H; auto.
    + apply negb_false_iff, Z.eqb_eq in H. subst z. auto 10.
    + apply negb_false_iff, String.eqb_eq in H. subst s. auto 10.
  - intros [-> | [-> | [-> | [-> | [-> | ->]]]]]; reflexivity.
Qed.

Lemma or_zero_id (n : Z) : or_zero n = n.
Proof. unfold or_zero. destruct (Z.eqb_spec n 0); congruence. Qed.

Lemma new_Quantum_eq (a b : Z) : new_Quantum a b = mkQuantum a b.
Proof. unfold new_Quantum. now rewrite !or_zero_id. Qed.

(** On two numbers the constructor builds the Quantum with these bounds:
    [new_Quantum] is [construct_Quantum] on numeric arguments. *)
Lemma construct_Quantum_numeric (a b : Z) :
  construct_Quantum (VNumber (Int a)) (VNumber (Int b))
  = to_object (new_Quantum a b).
Proof.
  unfold construct_Quantum, new_Quantum, to_object, js_or, or_zero, zero; simpl.
  destruct (Z.eqb_spec a 0) as [-> | _], (Z.eqb_spec b 0) as [-> | _];
    reflexivity.
Qed.

(** C9, as stated, fails: a bound that is not a number but is truthy (a
    non-empty string here) is stored as it is, 0 does not replace it. *)
Lemma construct_Quantum_keeps_string :
  this_start (construct_Quantum (VString "now") VUndefined) = VString "now"
  /\ this_start (construct_Quantum (VString "now") VUndefined) <> zero.
Proof. split; [reflexivity | discriminate]. Qed.

(** C9, amended: the constructor never fails; it stores 0 for a bound that
    is omitted or falsy (undefined, null, false, NaN, 0, the empty string)
    and stores every other argument unchanged, numeric or not. *)
Theorem construct_Quantum_bounds (start stop : value) :
  let q := construct_Quantum start stop in
  ((falsy start -> this_start q = zero) /\
   (~ falsy start -> this_start q = start)) /\
  ((falsy stop -> this_stop q = zero) /\
   (~ falsy stop -> this_stop q = stop)).
Proof.
  assert (Hor : forall v, (falsy v -> js_or v zero = zero) /\
                          (~ falsy v -> js_or v zero = v)).
  { intros v. unfold js_or. split; intros Hv.
    - apply ToBoolean_false_iff in Hv. now rewrite Hv.
    - destruct (ToBoolean v) eqn:E; [reflexivity |].
      exfalso. apply Hv. now apply ToBoolean_false_iff. }
  simpl. split; apply Hor.
Qed.

(** ** The operations on pairs *)

Lemma intersects_true_iff (a b : Quantum) :
  intersects a b = true <->
  (start a <= start b /\ stop a >= start b) \/
  (start b <= start a /\ stop b >= start a).
Proof.
  unfold intersects; cbv zeta.
  rewrite orb_true_iff, !andb_true_iff, !Z.leb_le, !Z.geb_le. lia.
Qed.

Lemma intersects_false_iff (a b : Quantum) :
  intersects a b = false <->
  (start b < start a \/ stop a < start b) /\
  (start a < start b \/ stop b < start a).
Proof.
  rewrite <- not_true_iff_false, intersects_true_iff. lia.
Qed.

(** C4: [intersects] gives the same answer for [(a, b)] and [(b, a)]. *)
Theorem intersects_symmetric (a b : Quantum) :
  intersects a b = intersects b a.
Proof.
  unfold intersects; cbv zeta. apply orb_comm.
Qed.

(** C5: [intersects a b] holds exactly when
    [(a.start <= b.start and a.stop >= b.start) or
     (b.start <= a.start and b.stop >= a.start)]; the comparisons are not
    strict, so an interval [a] that stops where [b] starts intersects it,
    and a Quantum with [start = stop] goes through the same formula. *)
Theorem intersects_closed_formula (a b : Quantum) :
  (intersects a b = true <->
     (start a <= start b /\ stop a >= start b) \/
     (start b <= start a /\ stop b >= start a)) /\
  (start a <= stop a -> stop a = start b -> intersects a b = true) /\
  (start a = stop a ->
     (intersects a b = true <->
        start a = start b \/ (start b <= start a /\ stop b >= start a))).
Proof.
  split; [apply intersects_true_iff |].
  split; [intros; apply intersects_true_iff; lia |].
  intros Heq. rewrite intersects_true_iff. lia.
Qed.

(** C1: [merge a b] is the one-element sequence holding the Quantum from
    the smaller start to the larger stop exactly when [intersects a b];
    otherwise it is [[a, b]], both unchanged and in the order given. *)
Theorem merge_correct (a b : Quantum) :
  (intersects a b = true ->
     merge a b = [mkQuantum (Z.min (start a) (start b))
                            (Z.max (stop a) (stop b))]) /\
  (intersects a b = false -> merge a b = [a; b]) /\
  ((exists q, merge a b = [q] /\
              start q = Z.min (start a) (start b) /\
              stop q = Z.max (stop a) (stop b))
   <-> intersects a b = true).
Proof.
  unfold merge; cbv zeta. rewrite new_Quantum_eq.
  destruct (intersects a b) eqn:E.
  - split; [reflexivity |]. split; [discriminate |].
    split; [reflexivity |]. intros _. eexists. split; [reflexivity |].
    split; reflexivity.
  - split; [discriminate |]. split; [reflexivity |].
    split; [| discriminate]. intros (q & Hq & _). discriminate Hq.
Qed.

(** The start of a merged pair is the smaller one also when [a] starts
    after [b]. *)
Example merge_takes_min :
  merge (mkQuantum 543 2345) (mkQuantum 123 6789) = [mkQuantum 123 6789].
Proof. reflexivity. Qed.

(** The oldest copy differs on both counts: its [intersect] is not
    symmetric, and where it merges it keeps the start of its first
    argument (there the smaller one, as [intersect] has just checked). *)
Example Legacy_intersect_one_sided :
  Legacy.intersect (mkQuantum 1 7) (mkQuantum 5 10) = true /\
  Legacy.intersect (mkQuantum 5 10) (mkQuantum 1 7) = false /\
  Legacy.merge (mkQuantum 5 10) (mkQuantum 1 7)
    = [mkQuantum 5 10; mkQuantum 1 7].
Proof. repeat split. Qed.

(** The copy in between merges on the two-sided test and loses the smaller
    start when it is the second one. *)
Example Interim_merge_keeps_first_start :
  Interim.merge (mkQuantum 543 2345) (mkQuantum 123 6789)
    = [mkQuantum 543 6789].
Proof. reflexivity. Qed.

Lemma Legacy_merge_start (a b : Quantum) :
  Legacy.intersect a b = true ->
  Legacy.merge a b = [mkQuantum (Z.min (start a) (start b))
                                (Z.max (stop a) (stop b))].
Proof.
  unfold Legacy.merge; cbv zeta. intros H. rewrite H, new_Quantum_eq.
  unfold Legacy.intersect in H; cbv zeta in H.
  apply andb_true_iff in H as [H _]. apply Z.leb_le in H.
  now rewrite Z.min_l.
Qed.

(** ** Neighbours in a sequence *)

Section Chain.
Variable R : Quantum -> Quantum -> Prop.

Lemma chain_nil : chain R [].
Proof. intros i a b H. discriminate H. Qed.

Lemma chain_one (x : Quantum) : chain R [x].
Proof. intros [ | i] a b _ H; discriminate H. Qed.

Lemma chain_cons (x y : Quantum) (l : list Quantum) :
  chain R (x :: y :: l) <-> R x y /\ chain R (y :: l).
Proof.
  split.
  - intros H. split.
    + apply (H 0%nat); reflexivity.
    + intros i a b Ha Hb. apply (H (S i)); assumption.
  - intros [Hxy H] [ | i] a b Ha Hb.
    + simpl in Ha, Hb. congruence.
    + apply (H i); assumption.
Qed.

Lemma chain_tail (x : Quantum) (l : list Quantum) :
  chain R (x :: l) -> chain R l.
Proof.
  destruct l as [ | y l]; [intros _; apply chain_nil |].
  intros H. now apply chain_cons in H.
Qed.

(** The boolean test decides the property. *)
Lemma neighbours_chain (r : Quantum -> Quantum -> bool) (xs : list Quantum) :
  (forall a b, r a b = true <-> R a b) ->
  neighbours r xs = true <-> chain R xs.
Proof.
  intros Hr. induction xs as [ | x [ | y l] IH].
  - split; [intros _; apply chain_nil | reflexivity].
  - split; [intros _; apply chain_one | reflexivity].
  - change (neighbours r (x :: y :: l))
      with (r x y && neighbours r (y :: l)).
    rewrite andb_true_iff, chain_cons, IH, Hr. reflexivity.
Qed.
End Chain.

Lemma ordered_by_start_test (xs : list Quantum) :
  neighbours (fun a b => start a <=? start b) xs = true <-> ordered_by_start xs.
Proof. apply neighbours_chain. intros a b. apply Z.leb_le. Qed.

Lemma neighbours_apart_test (xs : list Quantum) :
  neighbours (fun a b => negb (intersects a b)) xs = true <-> neighbours_apart xs.
Proof. apply neighbours_chain. intros a b. apply negb_true_iff. Qed.

(** ** The sweep of [disjoint] *)


Lemma cover_cons (x e : Quantum) (es : list Quantum) :
  cover x (e :: es) =
  if intersects x e
  then cover (mkQuantum (Z.min (start x) (start e)) (Z.max (stop x) (stop e))) es
  else x :: cover e es.
Proof.
  unfold cover; simpl. destruct (intersects x e); [reflexivity |].
  destruct (sweep e es); reflexivity.
Qed.

Lemma ordered_merged (x e : Quantum) (es : list Quantum) :
  ordered_by_start (x :: e :: es) ->
  ordered_by_start
    (mkQuantum (Z.min (start x) (start e)) (Z.max (stop x) (stop e)) :: es).
Proof.
  intros Hord. apply chain_cons in Hord as [Hxe Hord].
  destruct es as [ | e' es]; [apply chain_one |].
  apply chain_cons in Hord as [Hee' Hord].
  apply chain_cons. split; [simpl; lia | exact Hord].
Qed.

(** The cover starts where the swept sequence starts, when that is
    ordered. *)
Lemma cover_head (es : list Quantum) : forall x,
  ordered_by_start (x :: es) ->
  exists y ys, cover x es = y :: ys /\ start y = start x.
Proof.
  induction es as [ | e es IH]; intros x Hord.
  - exists x, []. split; reflexivity.
  - rewrite cover_cons. destruct (intersects x e).
    + destruct (IH _ (ordered_merged x e es Hord)) as (y & ys & -> & Hy).
      apply chain_cons in Hord as [Hxe _].
      exists y, ys. split; [reflexivity |]. simpl in Hy. lia.
    + exists x, (cover e es). split; reflexivity.
Qed.

(** Sweeping an ordered sequence gives an ordered cover. *)
Lemma cover_ordered (es : list Quantum) : forall x,
  ordered_by_start (x :: es) -> ordered_by_start (cover x es).
Proof.
  induction es as [ | e es IH]; intros x Hord.
  - apply chain_one.
  - rewrite cover_cons. destruct (intersects x e).
    + apply IH. now apply ordered_merged.
    + pose proof Hord as Hord'. apply chain_cons in Hord' as [Hxe Hes].
      destruct (cover_head es e Hes) as (y & ys & Hc & Hy).
      specialize (IH e Hes). rewrite Hc in *.
      apply chain_cons. split; [lia | exact IH].
Qed.

(** Sweeping an ordered sequence of intervals leaves no two neighbours
    that intersect. *)
Lemma cover_apart (es : list Quantum) : forall x,
  well_formed x -> Forall well_formed es ->
  ordered_by_start (x :: es) -> neighbours_apart (cover x es).
Proof.
  induction es as [ | e es IH]; intros x Hx Hes Hord.
  - apply chain_one.
  - apply Forall_cons_1 in Hes as [He Hes].
    rewrite cover_cons. destruct (intersects x e) eqn:E.
    + apply IH; [| exact Hes | now apply ordered_merged].
      unfold well_formed in *; simpl. lia.
    + apply chain_cons in Hord as [Hxe Hord].
      destruct (cover_head es e Hord) as (y & ys & Hc & Hy).
      specialize (IH e He Hes Hord). rewrite Hc in *.
      apply chain_cons. split; [| exact IH].
      apply intersects_false_iff in E. apply intersects_false_iff.
      unfold well_formed in Hx. lia.
Qed.

(** Sweeping a sequence whose neighbours do not intersect changes
    nothing. *)
Lemma cover_fixed (es : list Quantum) : forall x,
  neighbours_apart (x :: es) -> cover x es = x :: es.
Proof.
  induction es as [ | e es IH]; intros x Hap; [reflexivity |].
  apply chain_cons in Hap as [Hxe Hap].
  rewrite cover_cons, Hxe. f_equal. now apply IH.
Qed.

(** ** Running the operations in a store *)

Lemma fresh_unused (h : store) : h !! fresh (dom h) = None.
Proof. apply not_elem_of_dom, is_fresh. Qed.

Lemma fresh_differs (h : store) (a : loc) (xs : list Quantum) :
  h !! a = Some xs -> a <> fresh (dom h).
Proof. intros Ha ->. rewrite fresh_unused in Ha. discriminate Ha. Qed.

Lemma elements_done (h : store) (a : loc) (xs : list Quantum) :
  h !! a = Some xs -> elements a h = Done xs h.
Proof. intros H. unfold elements. now rewrite H. Qed.

Lemma item_done (xs : list Quantum) (i : nat) (q : Quantum) (h : store) :
  xs !! i = Some q -> item xs (Z.of_nat i) h = Done q h.
Proof.
  intros H. unfold item.
  destruct (Z.ltb_spec (Z.of_nat i) 0) as [Hneg | _]; [lia |].
  now rewrite Nat2Z.id, H.
Qed.

Lemma at_index_done (h : store) (a : loc) (xs : list Quantum) (i : nat)
    (q : Quantum) :
  h !! a = Some xs -> xs !! i = Some q -> at_index a i h = Done q h.
Proof.
  intros Ha Hi. unfold at_index, bind.
  rewrite (elements_done _ _ _ Ha). now apply item_done.
Qed.

Lemma Array_push_done (h : store) (a : loc) (xs : list Quantum) (q : Quantum) :
  h !! a = Some xs -> Array_push a q h = Done tt (<[a := xs ++ [q]]> h).
Proof.
  intros Ha. unfold Array_push, bind. now rewrite (elements_done _ _ _ Ha).
Qed.

(** The loop reads [set] from index [i] on and appends to [out] what
    [sweep] lists; no other array changes.  The two arrays must be
    different objects. *)
Lemma disjoint_loop_sweep (n : nat) :
  forall (i : nat) (q : Quantum) (acc : list Quantum) (h : store)
         (set out : loc) (xs : list Quantum),
    set <> out -> h !! set = Some xs -> h !! out = Some acc ->
    (i + n)%nat = length xs ->
    disjoint_loop n i set out q h
    = Done (sweep q (drop i xs)).2
           (<[out := acc ++ (sweep q (drop i xs)).1]> h).
Proof.
  induction n as [ | n IH]; intros i q acc h set out xs Hne Hset Hout Hlen.
  - rewrite drop_ge by lia. simpl. rewrite app_nil_r.
    unfold ret. f_equal. symmetry. now apply insert_id.
  - destruct (lookup_lt_is_Some_2 xs i) as [e He]; [lia |].
    rewrite (drop_S _ _ _ He). simpl.
    unfold bind at 1. rewrite (at_index_done _ _ _ _ _ Hset He).
    unfold merge; cbv zeta. rewrite new_Quantum_eq.
    destruct (intersects q e).
    + cbn [length Z.of_nat Pos.of_succ_nat Z.sub Z.add Z.opp Z.pos_sub Z.eqb].
      unfold bind, ret. simpl.
      apply IH; [assumption .. | lia].
    + unfold bind. simpl.
      rewrite (Array_push_done _ _ _ _ Hout).
      rewrite (IH (S i) e (acc ++ [q]) _ set out xs Hne);
        [ | now rewrite lookup_insert_ne by congruence
          | apply lookup_insert_eq | lia ].
      destruct (sweep e (drop (S i) xs)) as [pushed q'] eqn:E. simpl.
      rewrite insert_insert_eq, <- app_assoc. reflexivity.
Qed.

(** [monotonic] copies the backing array to a new location and sorts the
    copy; the store is otherwise as before. *)
Lemma monotonic_done (host : host_sort) (this : QuantumSet)
    (cmp : option comparefn) (h : store) (xs : list Quantum) :
  h !! _set this = Some xs ->
  monotonic host this cmp h
  = Done (fresh (dom h))
         (<[fresh (dom h) := host (default this_compare cmp) xs]> h).
Proof.
  intros Hset.
  unfold monotonic, Array_slice, Array_sort, new_Array, assign, bind, ret.
  rewrite (elements_done _ _ _ Hset).
  unfold elements. rewrite lookup_insert_eq, insert_insert_eq. reflexivity.
Qed.

(** [disjoint] on a store whose swept sequence is [y :: ys]: the result
    is a new array holding [cover y ys].  When [mono] is false the store
    also gains the sorted copy [monotonic] made. *)
Lemma disjoint_done (host : host_sort) (this : QuantumSet) (mono : bool)
    (h : store) (xs : list Quantum) (y : Quantum) (ys : list Quantum) :
  h !! _set this = Some xs ->
  swept host mono xs = y :: ys ->
  let h1 := if mono then h else <[fresh (dom h) := y :: ys]> h in
  disjoint host this mono h
  = Done (fresh (dom h1)) (<[fresh (dom h1) := cover y ys]> h1).
Proof.
  intros Hset Hswept h1.
  set (set := if mono then _set this else fresh (dom h)).
  assert (Hfirst : (if negb mono then monotonic host this None
                    else ret (_set this)) h = Done set h1).
  { subst set h1. destruct mono; simpl in *; [reflexivity |].
    rewrite (monotonic_done _ _ _ _ _ Hset). simpl. now rewrite Hswept. }
  assert (Hsw : h1 !! set = Some (y :: ys)).
  { subst set h1. destruct mono; simpl in *.
    - now rewrite <- Hswept.
    - apply lookup_insert_eq. }
  assert (Hne : set <> fresh (dom h1)) by (eapply fresh_differs; eauto).
  unfold disjoint. unfold bind at 1. rewrite Hfirst.
  unfold bind at 1. unfold new_Array at 1.
  set (out := fresh (dom h1)) in *.
  assert (Hsw' : <[out := []]> h1 !! set = Some (y :: ys))
    by now rewrite lookup_insert_ne by congruence.
  unfold bind at 1. rewrite (at_index_done _ _ _ 0%nat y Hsw') by reflexivity.
  unfold bind at 1. unfold length_of, bind at 1.
  rewrite (elements_done _ _ _ Hsw'). unfold ret at 1.
  unfold bind at 1.
  rewrite (disjoint_loop_sweep _ 1%nat y [] _ set out (y :: ys) Hne Hsw');
    [ | apply lookup_insert_eq | simpl; lia ].
  simpl drop. rewrite drop_0, insert_insert_eq. simpl app.
  unfold bind, ret.
  rewrite (Array_push_done _ _ (sweep y ys).1) by apply lookup_insert_eq.
  now rewrite insert_insert_eq.
Qed.

(** ** The engines' insertion sorts *)

Section Insertion.
Variable moves : Quantum -> Quantum -> bool.

Lemma shift_perm (element : Quantum) (rpre : list Quantum) :
  shift moves element rpre ≡ₚ element :: rpre.
Proof.
  induction rpre as [ | tmp rest IH]; simpl; [reflexivity |].
  destruct (moves tmp element); [| reflexivity].
  rewrite IH. apply Permutation_swap.
Qed.

Lemma shift_fold_perm (xs : list Quantum) : forall rpre,
  fold_left (fun rpre element => shift moves element rpre) xs rpre
  ≡ₚ xs ++ rpre.
Proof.
  induction xs as [ | x xs IH]; intros rpre; simpl; [reflexivity |].
  rewrite IH, shift_perm. symmetry. apply Permutation_middle.
Qed.

Lemma insertion_sort_perm (xs : list Quantum) :
  xs ≡ₚ insertion_sort moves xs.
Proof.
  unfold insertion_sort.
  rewrite <- Permutation_rev, shift_fold_perm, app_nil_r. reflexivity.
Qed.

(** When nothing ever moves, the array stays as it is. *)
Lemma insertion_sort_still (xs : list Quantum) :
  (forall tmp element, moves tmp element = false) ->
  insertion_sort moves xs = xs.
Proof.
  intros Hstill. unfold insertion_sort.
  assert (H : forall ys rpre,
    fold_left (fun rpre element => shift moves element rpre) ys rpre
    = rev ys ++ rpre).
  { induction ys as [ | y ys IH]; intros rpre; simpl; [reflexivity |].
    rewrite IH, <- app_assoc.
    destruct rpre as [ | tmp rest]; simpl; [reflexivity |].
    now rewrite Hstill. }
  now rewrite H, app_nil_r, rev_involutive.
Qed.

(** [R x y]: [x] may stand after [y].  The test [moves] decides where
    an element goes, and follows [R] on the values of [S]. *)
Variable R : Quantum -> Quantum -> Prop.
Variable S : list Quantum.
Hypothesis moves_true : forall tmp element, tmp ∈ S -> element ∈ S ->
  moves tmp element = true -> R tmp element.
Hypothesis moves_false : forall tmp element, tmp ∈ S -> element ∈ S ->
  moves tmp element = false -> R element tmp.
Hypothesis R_trans : forall x y z, x ∈ S -> y ∈ S -> z ∈ S ->
  R x y -> R y z -> R x z.

(** The sorted part, read from the right. *)
Lemma shift_sorted (element : Quantum) (rpre : list Quantum) :
  element ∈ S -> Forall (fun x => x ∈ S) rpre ->
  StronglySorted R rpre -> StronglySorted R (shift moves element rpre).
Proof.
  intros He. induction rpre as [ | tmp rest IH]; intros HS Hd; simpl.
  - apply StronglySorted_cons. split; constructor.
  - apply Forall_cons_1 in HS as [Ht HS].
    apply StronglySorted_cons in Hd as [Htmp Hd].
    destruct (moves tmp element) eqn:E.
    + apply StronglySorted_cons. split; [| now apply IH].
      rewrite shift_perm. constructor; [now apply moves_true | exact Htmp].
    + apply moves_false in E; [| assumption ..].
      apply StronglySorted_cons. split.
      * constructor; [exact E |].
        rewrite Forall_forall in Htmp, HS. apply Forall_forall.
        intros y Hy. apply (R_trans element tmp y); auto.
      * apply StronglySorted_cons. split; assumption.
Qed.

Lemma shift_fold_sorted (xs : list Quantum) : forall rpre,
  Forall (fun x => x ∈ S) xs -> Forall (fun x => x ∈ S) rpre ->
  StronglySorted R rpre ->
  StronglySorted R
    (fold_left (fun rpre element => shift moves element rpre) xs rpre).
Proof.
  induction xs as [ | x xs IH]; intros rpre Hxs HS Hd; simpl; [exact Hd |].
  apply Forall_cons_1 in Hxs as [Hx Hxs].
  apply IH; [exact Hxs | | now apply shift_sorted].
  rewrite shift_perm. now constructor.
Qed.

Lemma StronglySorted_rev (l : list Quantum) :
  StronglySorted R l -> StronglySorted (fun x y => R y x) (rev l).
Proof.
  induction l as [ | x l IH]; intros Hd; simpl.
  - constructor.
  - apply StronglySorted_cons in Hd as [Hx Hd].
    apply StronglySorted_app. split; [| split].
    + intros x1 x2 H1 H2. apply list_elem_of_singleton in H2 as ->.
      rewrite Forall_forall in Hx. apply Hx.
      apply list_elem_of_In, in_rev. now apply list_elem_of_In.
    + now apply IH.
    + apply StronglySorted_cons. split; constructor.
Qed.

Lemma insertion_sort_sorted (xs : list Quantum) :
  Forall (fun x => x ∈ S) xs ->
  StronglySorted (fun x y => R y x) (insertion_sort moves xs).
Proof.
  intros Hxs.
  apply StronglySorted_rev, shift_fold_sorted; [exact Hxs | | ]; constructor.
Qed.
End Insertion.

(** Consequences of consistency: [<CF] and [>CF] mirror each other, and
    "not less" is transitive. *)
Section Consistent.
Variable f : comparefn.
Variable S : list Quantum.
Hypothesis Hcf : consistent f S.

Lemma cf_lt_gt (a b : Quantum) :
  a ∈ S -> b ∈ S -> SortCompare f a b < 0 -> SortCompare f b a > 0.
Proof.
  intros Ha Hb Hab.
  destruct (Z.lt_trichotomy (SortCompare f b a) 0) as [Hba | [Hba | Hba]].
  - pose proof (cf_lt_trans f S Hcf a b a Ha Hb Ha Hab Hba).
    pose proof (cf_refl f S Hcf a Ha). lia.
  - pose proof (cf_sym f S Hcf b a Hb Ha Hba). lia.
  - lia.
Qed.

Lemma cf_gt_lt (a b : Quantum) :
  a ∈ S -> b ∈ S -> SortCompare f a b > 0 -> SortCompare f b a < 0.
Proof.
  intros Ha Hb Hab.
  destruct (Z.lt_trichotomy (SortCompare f b a) 0) as [Hba | [Hba | Hba]].
  - lia.
  - pose proof (cf_sym f S Hcf b a Hb Ha Hba). lia.
  - pose proof (cf_gt_trans f S Hcf a b a Ha Hb Ha Hab ltac:(lia)).
    pose proof (cf_refl f S Hcf a Ha). lia.
Qed.

Lemma cf_not_lt_trans (e tmp y : Quantum) :
  e ∈ S -> tmp ∈ S -> y ∈ S ->
  ~ SortCompare f e tmp < 0 -> ~ SortCompare f tmp y < 0 ->
  ~ SortCompare f e y < 0.
Proof.
  intros He Ht Hy Het Hty Hey.
  destruct (Z.lt_trichotomy (SortCompare f tmp y) 0) as [H | [H | H]];
    [lia | | ].
  - destruct (Z.lt_trichotomy (SortCompare f e tmp) 0) as [H' | [H' | H']];
      [lia | | ].
    + pose proof (cf_eq_trans f S Hcf e tmp y He Ht Hy H' H). lia.
    + pose proof (cf_gt_lt e tmp He Ht ltac:(lia)) as Hte.
      pose proof (cf_lt_trans f S Hcf tmp e y Ht He Hy Hte Hey). lia.
  - pose proof (cf_gt_lt tmp y Ht Hy ltac:(lia)) as Hyt.
    pose proof (cf_lt_trans f S Hcf e y tmp He Hy Ht Hey Hyt). lia.
Qed.
End Consistent.

Lemma Forall_self (xs : list Quantum) : Forall (fun x => x ∈ xs) xs.
Proof. now apply Forall_forall. Qed.

(** Both engines meet the standard: they permute, and they sort under
    every consistent comparison function. *)
Lemma sort_gt_ecma : ecma_sort sort_gt.
Proof.
  intros f xs. split; [apply insertion_sort_perm |].
  intros Hcf. unfold sort_order, sort_gt.
  apply (insertion_sort_sorted _ (fun x y => ~ SortCompare f x y < 0) xs);
    [ | | | apply Forall_self ].
  - intros tmp e _ _ H. apply Z.ltb_lt in H. lia.
  - intros tmp e Ht He H Hlt. apply Z.ltb_ge in H.
    pose proof (cf_lt_gt f xs Hcf e tmp He Ht Hlt). lia.
  - intros x y z. apply (cf_not_lt_trans f xs Hcf).
Qed.

Lemma sort_lt_ecma : ecma_sort sort_lt.
Proof.
  intros f xs. split; [apply insertion_sort_perm |].
  intros Hcf. unfold sort_order, sort_lt.
  apply (insertion_sort_sorted _ (fun x y => ~ SortCompare f x y < 0) xs);
    [ | | | apply Forall_self ].
  - intros tmp e Ht He H. apply Z.ltb_lt in H.
    pose proof (cf_lt_gt f xs Hcf e tmp He Ht H). lia.
  - intros tmp e _ _ H. apply Z.ltb_ge in H. lia.
  - intros x y z. apply (cf_not_lt_trans f xs Hcf).
Qed.

(** ** The default comparison function under [sort] *)

Lemma SortCompare_this_compare (q1 q2 : Quantum) :
  SortCompare this_compare q1 q2 = if start q1 >=? start q2 then 1 else 0.
Proof. reflexivity. Qed.

(** [compare] answers with a boolean and says "greater" of a Quantum and
    itself: it is a consistent comparison function for no array that has
    an element, so the standard leaves the order to the engine. *)
Lemma this_compare_not_consistent (x : Quantum) (xs : list Quantum) :
  ~ consistent this_compare (x :: xs).
Proof.
  intros Hcf.
  pose proof (cf_refl _ _ Hcf x ltac:(left)) as H.
  rewrite SortCompare_this_compare in H.
  destruct (Z.geb_spec (start x) (start x)); [discriminate H | lia].
Qed.

(** An engine that asks whether [comparefn( element, tmp )] is negative
    never moves anything: [compare] has no negative answer. *)
Lemma sort_lt_this_compare (xs : list Quantum) :
  sort_lt this_compare xs = xs.
Proof.
  apply insertion_sort_still. intros tmp element.
  rewrite SortCompare_this_compare.
  now destruct (start element >=? start tmp).
Qed.

Lemma StronglySorted_chain (R : Quantum -> Quantum -> Prop) (xs : list Quantum) :
  StronglySorted R xs -> chain R xs.
Proof.
  induction xs as [ | x [ | y l] IH]; intros H.
  - apply chain_nil.
  - apply chain_one.
  - apply StronglySorted_cons in H as [Hx H]. apply chain_cons.
    split; [| now apply IH]. now apply Forall_cons_1 in Hx as [Hxy _].
Qed.

(** An engine that shifts on a positive answer does order by start with
    [compare]. *)
Lemma sort_gt_this_compare (xs : list Quantum) :
  xs ≡ₚ sort_gt this_compare xs /\
  ordered_by_start (sort_gt this_compare xs).
Proof.
  split; [apply insertion_sort_perm |].
  apply StronglySorted_chain. unfold sort_gt.
  apply (insertion_sort_sorted _ (fun x y => start y <= start x) xs);
    [ | | | apply Forall_self ].
  - intros tmp e _ _ H. rewrite SortCompare_this_compare in H.
    destruct (Z.geb_spec (start tmp) (start e)); [lia | discriminate H].
  - intros tmp e _ _ H. rewrite SortCompare_this_compare in H.
    destruct (Z.geb_spec (start tmp) (start e)); [discriminate H | lia].
  - intros x y z _ _ _. lia.
Qed.

(** ** [monotonic] and [disjoint] against the backing array *)

(** C8: [monotonic] returns a new array and leaves the backing array, and
    every other array of the store, as it was; the new array holds the
    engine's ordering of the elements. *)
Theorem monotonic_leaves_backing (host : host_sort) (this : QuantumSet)
    (cmp : option comparefn) (h : store) (xs : list Quantum) :
  h !! _set this = Some xs ->
  exists (a : loc) (h' : store),
    monotonic host this cmp h = Done a h' /\
    a <> _set this /\ h !! a = None /\
    h' !! a = Some (host (default this_compare cmp) xs) /\
    h' !! _set this = Some xs /\
    (forall (l : loc) (ys : list Quantum), h !! l = Some ys -> h' !! l = Some ys).
Proof.
  intros Hset. eexists (fresh (dom h)), _.
  split; [apply (monotonic_done _ _ _ _ _ Hset) |].
  pose proof (fresh_differs h) as Hfresh.
  split; [intros E; now apply (Hfresh _ _ Hset) |].
  split; [apply fresh_unused |].
  split; [apply lookup_insert_eq |].
  assert (Hkeep : forall l ys, h !! l = Some ys ->
            <[fresh (dom h) := host (default this_compare cmp) xs]> h !! l = Some ys).
  { intros l ys Hl. rewrite lookup_insert_ne; [exact Hl |].
    intros E. now apply (Hfresh _ _ Hl). }
  split; [now apply Hkeep | exact Hkeep].
Qed.

Lemma monotonic_leaves_backing_witness :
  let h : store := {[ 0%nat := [mkQuantum 3 4; mkQuantum 1 2] ]} in
  exists (a : loc) (h' : store),
    monotonic sort_gt (mkQuantumSet 0%nat) None h = Done a h' /\
    a <> 0%nat /\ h !! a = None /\
    h' !! a = Some (sort_gt this_compare [mkQuantum 3 4; mkQuantum 1 2]) /\
    h' !! 0%nat = Some [mkQuantum 3 4; mkQuantum 1 2] /\
    (forall (l : loc) (ys : list Quantum), h !! l = Some ys -> h' !! l = Some ys).
Proof.
  intros h.
  apply (monotonic_leaves_backing sort_gt (mkQuantumSet 0%nat) None h
           [mkQuantum 3 4; mkQuantum 1 2]).
  reflexivity.
Defined.

(** The oldest copy sorts the backing array itself and returns it. *)
Example Legacy_monotonic_in_place :
  let h : store := {[ 0%nat := [mkQuantum 3 4; mkQuantum 1 2] ]} in
  Legacy.monotonic sort_gt (mkQuantumSet 0%nat) None h
  = Done 0%nat (<[ 0%nat := [mkQuantum 1 2; mkQuantum 3 4] ]> h).
Proof. reflexivity. Qed.

Lemma swept_nonempty (host : host_sort) (mono : bool) (xs : list Quantum) :
  ecma_sort host -> xs <> [] ->
  exists y ys, swept host mono xs = y :: ys.
Proof.
  intros Hhost Hxs. destruct (swept host mono xs) as [ | y ys] eqn:E; [| eauto].
  exfalso. apply Hxs. destruct mono; simpl in E; [exact E |].
  destruct (Hhost this_compare xs) as [Hperm _]. rewrite E in Hperm.
  now apply Permutation_nil_r in Hperm.
Qed.

(** What [disjoint] does to the store, whatever it sweeps. *)
Lemma disjoint_frame (host : host_sort) (this : QuantumSet) (mono : bool)
    (h : store) (xs : list Quantum) (y : Quantum) (ys : list Quantum) :
  h !! _set this = Some xs ->
  swept host mono xs = y :: ys ->
  exists (out : loc) (h' : store),
    disjoint host this mono h = Done out h' /\
    h' !! out = Some (cover y ys) /\
    h !! out = None /\
    (forall (l : loc) (zs : list Quantum), h !! l = Some zs -> h' !! l = Some zs).
Proof.
  intros Hset Hswept.
  pose proof (disjoint_done host this mono h xs y ys Hset Hswept) as Hrun.
  cbv zeta in Hrun.
  set (h1 := if mono then h else <[fresh (dom h) := y :: ys]> h) in *.
  assert (Hkeep1 : forall l zs, h !! l = Some zs -> h1 !! l = Some zs).
  { intros l zs Hl. subst h1. destruct mono; [exact Hl |].
    rewrite lookup_insert_ne; [exact Hl |].
    intros E. now apply (fresh_differs h _ _ Hl). }
  eexists (fresh (dom h1)), _. split; [exact Hrun |].
  split; [apply lookup_insert_eq |]. split.
  - destruct (h !! fresh (dom h1)) as [zs | ] eqn:E; [| reflexivity].
    apply Hkeep1 in E. now rewrite fresh_unused in E.
  - intros l zs Hl. apply Hkeep1 in Hl.
    rewrite lookup_insert_ne; [exact Hl |].
    intros E. now apply (fresh_differs h1 _ _ Hl).
Qed.

(** C10: on a non-empty collection [disjoint], with either value of the
    flag, returns a newly built array and leaves the backing array, and
    every other array that was in the store, as it was. *)
Theorem disjoint_leaves_backing (host : host_sort) (this : QuantumSet)
    (mono : bool) (h : store) (xs : list Quantum) :
  ecma_sort host ->
  h !! _set this = Some xs -> xs <> [] ->
  exists (out : loc) (h' : store),
    disjoint host this mono h = Done out h' /\
    out <> _set this /\ h !! out = None /\
    h' !! _set this = Some xs /\
    (forall (l : loc) (zs : list Quantum), h !! l = Some zs -> h' !! l = Some zs).
Proof.
  intros Hhost Hset Hxs.
  destruct (swept_nonempty host mono xs Hhost Hxs) as (y & ys & Hswept).
  destruct (disjoint_frame host this mono h xs y ys Hset Hswept)
    as (out & h' & Hrun & _ & Hnew & Hkeep).
  exists out, h'. split; [exact Hrun |].
  split; [intros E; rewrite E, Hset in Hnew; discriminate Hnew |].
  split; [exact Hnew |]. split; [now apply Hkeep | exact Hkeep].
Qed.

Lemma disjoint_leaves_backing_witness :
  let h : store := {[ 0%nat := [mkQuantum 3 4; mkQuantum 1 2] ]} in
  exists (out : loc) (h' : store),
    disjoint sort_gt (mkQuantumSet 0%nat) false h = Done out h' /\
    out <> 0%nat /\ h !! out = None /\
    h' !! 0%nat = Some [mkQuantum 3 4; mkQuantum 1 2] /\
    (forall (l : loc) (zs : list Quantum), h !! l = Some zs -> h' !! l = Some zs).
Proof.
  intros h.
  apply (disjoint_leaves_backing sort_gt (mkQuantumSet 0%nat) false h
           [mkQuantum 3 4; mkQuantum 1 2] sort_gt_ecma);
    [reflexivity | discriminate].
Defined.

(** ** The result of [disjoint] *)

(** C2, as stated, fails: the library accepts Quanta that stop before they
    start, and on the ordered backing sequence (5,3), (5,4), (5,10), swept
    as it is, [disjoint] returns (5,3), (5,10), two neighbours that
    intersect. *)
Lemma disjoint_neighbours_may_intersect :
  ~ (forall (host : host_sort) (this : QuantumSet) (h : store)
            (xs : list Quantum),
       h !! _set this = Some xs -> xs <> [] -> ordered_by_start xs ->
       exists (out : loc) (h' : store) (ys : list Quantum),
         disjoint host this true h = Done out h' /\ h' !! out = Some ys /\
         ordered_by_start ys /\ neighbours_apart ys).
Proof.
  intros Hclaim.
  set (xs := [mkQuantum 5 3; mkQuantum 5 4; mkQuantum 5 10]).
  set (h := {[ 0%nat := xs ]} : store).
  destruct (Hclaim sort_lt (mkQuantumSet 0%nat) h xs)
    as (out & h' & ys & Hrun & Hout & _ & Hapart).
  - reflexivity.
  - discriminate.
  - now apply ordered_by_start_test.
  - destruct (disjoint_frame sort_lt (mkQuantumSet 0%nat) true h xs
                (mkQuantum 5 3) [mkQuantum 5 4; mkQuantum 5 10])
      as (out' & h'' & Hrun' & Hout' & _); [reflexivity .. |].
    rewrite Hrun in Hrun'. injection Hrun' as -> ->.
    rewrite Hout in Hout'. injection Hout' as ->.
    apply neighbours_apart_test in Hapart. discriminate Hapart.
Qed.

(** C2, amended: on a non-empty collection, when the sequence [disjoint]
    sweeps (the backing sequence with the flag true, the result of
    [monotonic] with the flag false) is ordered by start, the returned
    sequence is ordered by start; and when moreover no Quantum of the
    collection stops before it starts, no two neighbours of the returned
    sequence intersect. *)
Theorem disjoint_ordered_apart (host : host_sort) (this : QuantumSet)
    (mono : bool) (h : store) (xs : list Quantum) :
  ecma_sort host ->
  h !! _set this = Some xs -> xs <> [] ->
  ordered_by_start (swept host mono xs) ->
  exists (out : loc) (h' : store) (ys : list Quantum),
    disjoint host this mono h = Done out h' /\ h' !! out = Some ys /\
    ordered_by_start ys /\
    (Forall well_formed xs -> neighbours_apart ys).
Proof.
  intros Hhost Hset Hxs Hord.
  destruct (swept_nonempty host mono xs Hhost Hxs) as (y & ys & Hswept).
  destruct (disjoint_frame host this mono h xs y ys Hset Hswept)
    as (out & h' & Hrun & Hout & _).
  exists out, h', (cover y ys). rewrite Hswept in Hord.
  split; [exact Hrun |]. split; [exact Hout |].
  split; [now apply cover_ordered |].
  intros Hwf.
  assert (Hwf' : Forall well_formed (y :: ys)).
  { rewrite <- Hswept. destruct mono; simpl; [exact Hwf |].
    destruct (Hhost this_compare xs) as [Hperm _]. now rewrite <- Hperm. }
  apply Forall_cons_1 in Hwf' as [Hy Hys]. now apply cover_apart.
Qed.

Lemma disjoint_ordered_apart_witness :
  let xs := [mkQuantum 3 9; mkQuantum 1 2; mkQuantum 2 5] in
  let h : store := {[ 0%nat := xs ]} in
  exists (out : loc) (h' : store) (ys : list Quantum),
    disjoint sort_gt (mkQuantumSet 0%nat) false h = Done out h' /\
    h' !! out = Some ys /\
    ordered_by_start ys /\
    (Forall well_formed xs -> neighbours_apart ys).
Proof.
  intros xs h.
  apply (disjoint_ordered_apart sort_gt (mkQuantumSet 0%nat) false h xs
           sort_gt_ecma);
    [reflexivity | discriminate | now apply ordered_by_start_test].
Defined.

(** C6, as stated, fails when [disjoint] sorts first: the two Quanta
    (5,3), (5,4) are ordered by start and do not intersect, yet an engine
    that shifts on a positive answer swaps them, since [compare] answers
    [true] on equal starts, and [disjoint] returns (5,4), (5,3). *)
Lemma disjoint_reorders_ties :
  ~ (forall (host : host_sort) (this : QuantumSet) (h : store)
            (xs : list Quantum),
       ecma_sort host ->
       h !! _set this = Some xs -> xs <> [] ->
       ordered_by_start xs -> neighbours_apart xs ->
       exists (out : loc) (h' : store),
         disjoint host this false h = Done out h' /\ h' !! out = Some xs).
Proof.
  intros Hclaim.
  set (xs := [mkQuantum 5 3; mkQuantum 5 4]).
  set (h := {[ 0%nat := xs ]} : store).
  destruct (Hclaim sort_gt (mkQuantumSet 0%nat) h xs sort_gt_ecma)
    as (out & h' & Hrun & Hout).
  - reflexivity.
  - discriminate.
  - now apply ordered_by_start_test.
  - now apply neighbours_apart_test.
  - destruct (disjoint_frame sort_gt (mkQuantumSet 0%nat) false h xs
                (mkQuantum 5 4) [mkQuantum 5 3])
      as (out' & h'' & Hrun' & Hout' & _); [reflexivity .. |].
    rewrite Hrun in Hrun'. injection Hrun' as -> ->.
    rewrite Hout in Hout'. discriminate Hout'.
Qed.

(** C6, amended: on a non-empty collection whose neighbours do not
    intersect, [disjoint] returns a sequence equal, element for element,
    to the collection's elements whenever it sweeps them in their order:
    with the flag true always, with the flag false when the engine's sort
    returns the copy in the order it had. *)
Theorem disjoint_of_disjoint (host : host_sort) (this : QuantumSet)
    (mono : bool) (h : store) (xs : list Quantum) :
  h !! _set this = Some xs -> xs <> [] ->
  neighbours_apart xs ->
  swept host mono xs = xs ->
  exists (out : loc) (h' : store),
    disjoint host this mono h = Done out h' /\ h' !! out = Some xs.
Proof.
  intros Hset Hxs Hapart Hswept.
  destruct xs as [ | x xs]; [congruence |].
  destruct (disjoint_frame host this mono h (x :: xs) x xs Hset Hswept)
    as (out & h' & Hrun & Hout & _).
  exists out, h'. split; [exact Hrun |].
  now rewrite Hout, cover_fixed.
Qed.

Lemma disjoint_of_disjoint_witness :
  let xs := [mkQuantum 2 23421; mkQuantum 2342933 82888329;
             mkQuantum 3232123423 238232482738] in
  let h : store := {[ 0%nat := xs ]} in
  exists (out : loc) (h' : store),
    disjoint sort_gt (mkQuantumSet 0%nat) false h = Done out h' /\
    h' !! out = Some xs.
Proof.
  intros xs h.
  apply (disjoint_of_disjoint sort_gt (mkQuantumSet 0%nat) false h xs);
    [reflexivity | discriminate | now apply neighbours_apart_test
    | reflexivity].
Defined.

(** ** [monotonic] under the engines *)

(** What [monotonic] returns, read back from the store. *)
Lemma monotonic_result (host : host_sort) (this : QuantumSet) (h : store)
    (xs : list Quantum) :
  h !! _set this = Some xs ->
  exists (a : loc) (h' : store),
    monotonic host this None h = Done a h' /\
    h' !! a = Some (host this_compare xs).
Proof.
  intros Hset. eexists _, _.
  split; [apply (monotonic_done _ _ _ _ _ Hset) | apply lookup_insert_eq].
Qed.

(** C7 does not hold of the code on every engine.  [compare] answers with
    a boolean where [sort] wants a negative, zero or positive number; an
    engine that tests for a negative answer (it meets the standard, see
    [sort_lt_ecma]) never moves an element, and [monotonic] returns the
    elements in the order they were pushed: (3,4) before (1,2). *)
Theorem monotonic_unordered_on_sort_lt :
  let xs := [mkQuantum 3 4; mkQuantum 1 2] in
  let h : store := {[ 0%nat := xs ]} in
  ecma_sort sort_lt /\
  exists (a : loc) (h' : store),
    monotonic sort_lt (mkQuantumSet 0%nat) None h = Done a h' /\
    h' !! a = Some xs /\
    ~ ordered_by_start xs.
Proof.
  intros xs h. split; [exact sort_lt_ecma |].
  destruct (monotonic_result sort_lt (mkQuantumSet 0%nat) h xs eq_refl)
    as (a & h' & Hrun & Ha).
  exists a, h'. split; [exact Hrun |].
  split; [now rewrite Ha, sort_lt_this_compare |].
  intros Hord. apply ordered_by_start_test in Hord. discriminate Hord.
Qed.

(** X2: on an engine that shifts on a positive answer [monotonic] does
    return the elements ordered by start. *)
Lemma monotonic_ordered_on_sort_gt (this : QuantumSet) (h : store)
    (xs : list Quantum) :
  h !! _set this = Some xs ->
  exists (a : loc) (h' : store) (ys : list Quantum),
    monotonic sort_gt this None h = Done a h' /\ h' !! a = Some ys /\
    xs ≡ₚ ys /\ ordered_by_start ys.
Proof.
  intros Hset.
  destruct (monotonic_result sort_gt this h xs Hset) as (a & h' & Hrun & Ha).
  exists a, h', (sort_gt this_compare xs).
  split; [exact Hrun |]. split; [exact Ha |]. apply sort_gt_this_compare.
Qed.

Lemma monotonic_ordered_on_sort_gt_witness :
  let xs := [mkQuantum 3 4; mkQuantum 1 2] in
  let h : store := {[ 0%nat := xs ]} in
  exists (a : loc) (h' : store) (ys : list Quantum),
    monotonic sort_gt (mkQuantumSet 0%nat) None h = Done a h' /\
    h' !! a = Some ys /\ xs ≡ₚ ys /\ ordered_by_start ys.
Proof.
  intros xs h.
  apply (monotonic_ordered_on_sort_gt (mkQuantumSet 0%nat) h xs).
  reflexivity.
Defined.

(** That engine leaves alone a sequence whose starts strictly increase. *)
Lemma sort_gt_increasing (xs : list Quantum) :
  StronglySorted (fun a b => start a < start b) xs ->
  sort_gt this_compare xs = xs.
Proof.
  intros Hinc. unfold sort_gt, insertion_sort.
  assert (H : forall ys rpre,
    StronglySorted (fun a b => start a < start b) ys ->
    Forall (fun tmp => Forall (fun e => start tmp < start e) ys) rpre ->
    fold_left (fun rpre element =>
                 shift (fun tmp element => 0 <? SortCompare this_compare tmp element)
                       element rpre) ys rpre
    = rev ys ++ rpre).
  { induction ys as [ | y ys IH]; intros rpre Hys Hpre; simpl; [reflexivity |].
    apply StronglySorted_cons in Hys as [Hy Hys].
    assert (Hshift : shift (fun tmp element =>
                              0 <? SortCompare this_compare tmp element) y rpre
                     = y :: rpre).
    { destruct rpre as [ | tmp rest]; simpl; [reflexivity |].
      apply Forall_cons_1 in Hpre as [Htmp _].
      apply Forall_cons_1 in Htmp as [Htmp _].
      rewrite SortCompare_this_compare.
      destruct (Z.geb_spec (start tmp) (start y)); [lia | reflexivity]. }
    rewrite Hshift, IH, <- app_assoc; [reflexivity | exact Hys |].
    constructor; [exact Hy |].
    eapply Forall_impl; [exact Hpre |].
    intros tmp Htmp. now apply Forall_cons_1 in Htmp as [_ Htmp]. }
  rewrite H, app_nil_r, rev_involutive; [reflexivity | exact Hinc |].
  constructor.
Qed.

(** ** The scenario of the test suite *)

(** The suite's checks of [merge]. *)
Example scenario_merge :
  merge (mkQuantum 234 432) (mkQuantum 543 2345)
    = [mkQuantum 234 432; mkQuantum 543 2345] /\
  merge (mkQuantum 234 432) (mkQuantum 123 6789) = [mkQuantum 123 6789] /\
  merge (mkQuantum 543 2345) (mkQuantum 123 6789) = [mkQuantum 123 6789].
Proof. repeat split. Qed.

(** C3 does not hold of the code on every engine, by the defect of C7: on
    the engine that tests for a negative answer, [disjoint()] sweeps the
    five Quanta in the order they were pushed, where no two neighbours
    intersect, and returns all five instead of the three expected. *)
Theorem disjoint_scenario_on_sort_lt :
  let xs := [mkQuantum 123 321; mkQuantum 2342933 82888329;
             mkQuantum 2322 23421; mkQuantum 3232123423 238232482738;
             mkQuantum 2 12342] in
  let h : store := {[ 0%nat := xs ]} in
  exists (out : loc) (h' : store),
    disjoint sort_lt (mkQuantumSet 0%nat) false h = Done out h' /\
    h' !! out = Some xs /\
    xs <> [mkQuantum 2 23421; mkQuantum 2342933 82888329;
           mkQuantum 3232123423 238232482738].
Proof.
  intros xs h.
  destruct (disjoint_frame sort_lt (mkQuantumSet 0%nat) false h xs
              (mkQuantum 123 321) (tail xs))
    as (out & h' & Hrun & Hout & _);
    [reflexivity | apply sort_lt_this_compare |].
  exists out, h'. split; [exact Hrun |]. split; [exact Hout | discriminate].
Qed.

(** On the engine that shifts on a positive answer the suite's
    expectations are met: [disjoint()] returns the three Quanta, and once
    they are installed with [set] the durations add up as listed. *)
Example disjoint_scenario_on_sort_gt :
  let xs := [mkQuantum 123 321; mkQuantum 2342933 82888329;
             mkQuantum 2322 23421; mkQuantum 3232123423 238232482738;
             mkQuantum 2 12342] in
  let h : store := {[ 0%nat := xs ]} in
  let s := mkQuantumSet 0%nat in
  exists (d : loc) (h' : store),
    disjoint sort_gt s false h = Done d h' /\
    h' !! d = Some [mkQuantum 2 23421; mkQuantum 2342933 82888329;
                    mkQuantum 3232123423 238232482738] /\
    QuantumSet_millis (QuantumSet_set s (Some d)).1 h'
    = Done ((23421 - 2) + (82888329 - 2342933) + (238232482738 - 3232123423))
           h'.
Proof.
  intros xs h s.
  destruct (disjoint_frame sort_gt s false h xs
              (mkQuantum 2 12342)
              [mkQuantum 123 321; mkQuantum 2322 23421;
               mkQuantum 2342933 82888329;
               mkQuantum 3232123423 238232482738])
    as (d & h' & Hrun & Hd & _); [reflexivity .. |].
  exists d, h'. split; [exact Hrun |]. split; [exact Hd |].
  unfold QuantumSet_millis, bind. simpl.
  now rewrite (elements_done _ _ _ Hd).
Qed.

(** The suite builds its collection with the constructor: the five Quanta
    end up in a new backing array, in the order given. *)
Lemma new_QuantumSet_done (args : list Quantum) (h : store) :
  new_QuantumSet (Some args) h
  = Done (mkQuantumSet (fresh (dom h))) (<[fresh (dom h) := args]> h).
Proof.
  unfold new_QuantumSet, push, Array_push_apply, new_Array, assign, bind, ret.
  unfold elements. simpl. now rewrite lookup_insert_eq, insert_insert_eq.
Qed.

Example scenario_reset :
  new_QuantumSet
    (Some [mkQuantum 123 321; mkQuantum 2342933 82888329;
           mkQuantum 2322 23421; mkQuantum 3232123423 238232482738;
           mkQuantum 2 12342]) ∅
  = Done (mkQuantumSet 0%nat)
      {[ 0%nat := [mkQuantum 123 321; mkQuantum 2342933 82888329;
                   mkQuantum 2322 23421; mkQuantum 3232123423 238232482738;
                   mkQuantum 2 12342] ]}.
Proof. rewrite new_QuantumSet_done. reflexivity. Qed.

(** ** What the cover covers *)

Lemma merged_covers (a b : Quantum) (t : Z) :
  well_formed a -> well_formed b -> intersects a b = true ->
  covers (mkQuantum (Z.min (start a) (start b)) (Z.max (stop a) (stop b))) t
  <-> covers a t \/ covers b t.
Proof.
  unfold well_formed, covers; simpl. intros Ha Hb H.
  apply intersects_true_iff in H. lia.
Qed.

Lemma covered_cons (q : Quantum) (xs : list Quantum) (t : Z) :
  covered (q :: xs) t <-> covers q t \/ covered xs t.
Proof. unfold covered. apply Exists_cons. Qed.

(** Sweeping intervals neither gains nor loses an instant. *)
Lemma cover_covered (es : list Quantum) : forall x t,
  well_formed x -> Forall well_formed es ->
  covered (cover x es) t <-> covered (x :: es) t.
Proof.
  induction es as [ | e es IH]; intros x t Hx Hes; [reflexivity |].
  apply Forall_cons_1 in Hes as [He Hes].
  rewrite cover_cons. destruct (intersects x e) eqn:E.
  - rewrite IH; [| unfold well_formed in *; simpl; lia | exact Hes].
    rewrite !covered_cons, merged_covers by assumption. tauto.
  - rewrite !covered_cons, IH by assumption. rewrite covered_cons. tauto.
Qed.

(** X1: coverage is kept by [disjoint]: on a non-empty collection of
    intervals the returned sequence covers exactly the instants the
    elements cover. *)
Theorem disjoint_covers_the_same (host : host_sort) (this : QuantumSet)
    (mono : bool) (h : store) (xs : list Quantum) :
  ecma_sort host ->
  h !! _set this = Some xs -> xs <> [] -> Forall well_formed xs ->
  exists (out : loc) (h' : store) (ys : list Quantum),
    disjoint host this mono h = Done out h' /\ h' !! out = Some ys /\
    forall t, covered ys t <-> covered xs t.
Proof.
  intros Hhost Hset Hxs Hwf.
  destruct (swept_nonempty host mono xs Hhost Hxs) as (y & ys & Hswept).
  destruct (disjoint_frame host this mono h xs y ys Hset Hswept)
    as (out & h' & Hrun & Hout & _).
  exists out, h', (cover y ys).
  split; [exact Hrun |]. split; [exact Hout |].
  assert (Hperm : xs ≡ₚ y :: ys).
  { rewrite <- Hswept. destruct mono; simpl; [reflexivity |].
    apply (Hhost this_compare xs). }
  intros t. rewrite Hperm in Hwf. apply Forall_cons_1 in Hwf as [Hy Hys].
  rewrite cover_covered by assumption.
  unfold covered. now rewrite Hperm.
Qed.

Lemma disjoint_covers_the_same_witness :
  let xs := [mkQuantum 3 9; mkQuantum 1 2; mkQuantum 2 5] in
  let h : store := {[ 0%nat := xs ]} in
  exists (out : loc) (h' : store) (ys : list Quantum),
    disjoint sort_gt (mkQuantumSet 0%nat) false h = Done out h' /\
    h' !! out = Some ys /\
    forall t, covered ys t <-> covered xs t.
Proof.
  intros xs h.
  apply (disjoint_covers_the_same sort_gt (mkQuantumSet 0%nat) false h xs
           sort_gt_ecma);
    [reflexivity | discriminate | ].
  repeat constructor; unfold well_formed; simpl; lia.
Defined.

(** ** Corner cases *)

(** An empty collection has no first element to sweep from. *)
Example disjoint_empty (host : host_sort) :
  disjoint host (mkQuantumSet 0%nat) true {[ 0%nat := [] ]}
  = Stuck UndefinedElement.
Proof. reflexivity. Qed.

Lemma chain_StronglySorted (R : Quantum -> Quantum -> Prop) (xs : list Quantum) :
  (forall x y z, R x y -> R y z -> R x z) ->
  chain R xs -> StronglySorted R xs.
Proof.
  intros Htrans. induction xs as [ | x [ | y l] IH]; intros Hc.
  - constructor.
  - apply StronglySorted_cons. split; constructor.
  - apply chain_cons in Hc as [Hxy Hc]. specialize (IH Hc).
    apply StronglySorted_cons. split; [| exact IH].
    constructor; [exact Hxy |].
    apply StronglySorted_cons in IH as [Hy _].
    eapply Forall_impl; [exact Hy |]. intros z Hyz. now apply (Htrans x y z).
Qed.

(** Intervals that are ordered by start and whose neighbours do not
    intersect start strictly one after the other. *)
Lemma apart_intervals_increasing (xs : list Quantum) :
  Forall well_formed xs -> ordered_by_start xs -> neighbours_apart xs ->
  StronglySorted (fun a b => start a < start b) xs.
Proof.
  intros Hwf Hord Hap. apply chain_StronglySorted; [intros x y z; lia |].
  intros i a b Ha Hb.
  specialize (Hord i a b Ha Hb). specialize (Hap i a b Ha Hb).
  simpl in Hord, Hap. apply intersects_false_iff in Hap.
  rewrite Forall_forall in Hwf.
  assert (Hwa : well_formed a) by (apply Hwf; eapply list_elem_of_lookup_2; eauto).
  unfold well_formed in Hwa. lia.
Qed.

(** X3: both engines leave such a sequence in place, so on them [disjoint]
    gives back an already disjoint, ordered collection of intervals, with
    either value of the flag. *)
Lemma disjoint_of_disjoint_intervals (host : host_sort) (this : QuantumSet)
    (mono : bool) (h : store) (xs : list Quantum) :
  host = sort_gt \/ host = sort_lt ->
  h !! _set this = Some xs -> xs <> [] ->
  Forall well_formed xs -> ordered_by_start xs -> neighbours_apart xs ->
  exists (out : loc) (h' : store),
    disjoint host this mono h = Done out h' /\ h' !! out = Some xs.
Proof.
  intros Hhost Hset Hxs Hwf Hord Hap.
  assert (Hswept : swept host mono xs = xs).
  { destruct mono; simpl; [reflexivity |].
    destruct Hhost as [-> | ->].
    - now apply sort_gt_increasing, apart_intervals_increasing.
    - apply sort_lt_this_compare. }
  destruct xs as [ | x xs]; [congruence |].
  destruct (disjoint_frame host this mono h (x :: xs) x xs Hset Hswept)
    as (out & h' & Hrun & Hout & _).
  exists out, h'. split; [exact Hrun |]. now rewrite Hout, cover_fixed.
Qed.

Lemma disjoint_of_disjoint_intervals_witness :
  let xs := [mkQuantum 2 23421; mkQuantum 2342933 82888329;
             mkQuantum 3232123423 238232482738] in
  let h : store := {[ 0%nat := xs ]} in
  exists (out : loc) (h' : store),
    disjoint sort_gt (mkQuantumSet 0%nat) false h = Done out h' /\
    h' !! out = Some xs.
Proof.
  intros xs h.
  apply (disjoint_of_disjoint_intervals sort_gt (mkQuantumSet 0%nat) false h xs);
    [ left; reflexivity | reflexivity | discriminate
    | repeat constructor; unfold well_formed; simpl; lia
    | now apply ordered_by_start_test
    | now apply neighbours_apart_test ].
Defined.

(* ===================================================================== *)
(** * Further properties of the library *)
(* ===================================================================== *)

(** ** The constructor and the pairwise operations *)

(** X4: a constructed Quantum never holds a falsy bound other than 0, and
    building a Quantum again from the bounds of one gives it back. *)
Theorem construct_Quantum_settled (start stop : value) :
  let q := construct_Quantum start stop in
  (this_start q = zero \/ ToBoolean (this_start q) = true) /\
  (this_stop q = zero \/ ToBoolean (this_stop q) = true) /\
  construct_Quantum (this_start q) (this_stop q) = q.
Proof.
  assert (H : forall v, (js_or v zero = zero \/ ToBoolean (js_or v zero) = true)
                        /\ js_or (js_or v zero) zero = js_or v zero).
  { intros v. unfold js_or. destruct (ToBoolean v) eqn:E.
    - rewrite E. auto.
    - simpl. auto. }
  simpl. unfold construct_Quantum; simpl.
  destruct (H start) as [H1 H2], (H stop) as [H3 H4].
  split; [exact H1 |]. split; [exact H3 |]. now rewrite H2, H4.
Qed.

(** X5: [compare] is total and answers [true] both ways exactly on equal
    starts; in particular it answers [true] on a Quantum and itself, so
    it never orders strictly. *)
Theorem compare_total (q1 q2 : Quantum) :
  (compare q1 q2 = true \/ compare q2 q1 = true) /\
  (compare q1 q2 = true /\ compare q2 q1 = true <-> start q1 = start q2) /\
  compare q1 q1 = true.
Proof.
  unfold compare. rewrite !Z.geb_le. split; [lia |]. split; lia.
Qed.

(** X6: two intervals intersect exactly when they share an instant. *)
Theorem intersects_shares_instant (a b : Quantum) :
  well_formed a -> well_formed b ->
  (intersects a b = true <-> exists t, covers a t /\ covers b t).
Proof.
  unfold well_formed, covers. intros Ha Hb.
  rewrite intersects_true_iff. split.
  - intros [[H1 H2] | [H1 H2]].
    + exists (start b). lia.
    + exists (start a). lia.
  - intros (t & Hat & Hbt). lia.
Qed.

Lemma intersects_shares_instant_witness :
  intersects (mkQuantum 1 5) (mkQuantum 5 9) = true <->
  exists t, covers (mkQuantum 1 5) t /\ covers (mkQuantum 5 9) t.
Proof.
  apply (intersects_shares_instant (mkQuantum 1 5) (mkQuantum 5 9));
    unfold well_formed; simpl; lia.
Defined.

(** X7: a Quantum intersects itself exactly when it does not stop before
    it starts. *)
Theorem intersects_self (a : Quantum) :
  intersects a a = true <-> start a <= stop a.
Proof. rewrite intersects_true_iff. lia. Qed.

Lemma intersects_symmetric_aux (a b : Quantum) :
  intersects a b = intersects b a.
Proof.
  apply eq_true_iff_eq. rewrite !intersects_true_iff. tauto.
Qed.

(** X8: [merge] does not depend on the order of its arguments when they
    intersect; when they do not, it keeps the order it is given. *)
Theorem merge_swapped (a b : Quantum) :
  merge b a = if intersects a b then merge a b else [b; a].
Proof.
  unfold merge; cbv zeta. rewrite (intersects_symmetric_aux b a).
  destruct (intersects a b); [| reflexivity].
  now rewrite Z.min_comm, Z.max_comm.
Qed.

(** ** Durations *)






Lemma merged_well_formed (x e : Quantum) :
  well_formed x ->
  well_formed (mkQuantum (Z.min (start x) (start e)) (Z.max (stop x) (stop e))).
Proof. unfold well_formed; simpl. lia. Qed.



(** ** More on the sweep *)

Lemma cover_length (es : list Quantum) : forall x,
  (1 <= length (cover x es) <= S (length es))%nat.
Proof.
  induction es as [ | e es IH]; intros x; [simpl; lia |].
  rewrite cover_cons. destruct (intersects x e).
  - specialize (IH (mkQuantum (Z.min (start x) (start e))
                              (Z.max (stop x) (stop e)))). simpl. lia.
  - specialize (IH e). simpl. lia.
Qed.

Lemma cover_well_formed (es : list Quantum) : forall x,
  well_formed x -> Forall well_formed es -> Forall well_formed (cover x es).
Proof.
  induction es as [ | e es IH]; intros x Hx Hes.
  - repeat constructor. exact Hx.
  - apply Forall_cons_1 in Hes as [He Hes]. rewrite cover_cons.
    destruct (intersects x e).
    + apply IH; [now apply merged_well_formed | exact Hes].
    + constructor; [exact Hx | now apply IH].
Qed.


(** On an ordered sequence of intervals each swept-out Quantum stops
    strictly before the next one starts. *)
Lemma cover_separated (es : list Quantum) : forall x,
  well_formed x -> Forall well_formed es ->
  ordered_by_start (x :: es) ->
  chain (fun a b => stop a < start b) (cover x es).
Proof.
  induction es as [ | e es IH]; intros x Hx Hes Hord.
  - apply chain_one.
  - apply Forall_cons_1 in Hes as [He Hes].
    rewrite cover_cons. destruct (intersects x e) eqn:E.
    + apply IH; [now apply merged_well_formed | exact Hes
                | now apply ordered_merged].
    + apply chain_cons in Hord as [Hxe Hord].
      destruct (cover_head es e Hord) as (y & ys & Hc & Hy).
      specialize (IH e He Hes Hord). rewrite Hc in *.
      apply chain_cons. split; [| exact IH].
      apply intersects_false_iff in E. lia.
Qed.

(** ** Building and filling a collection *)

Lemma push_done (this : QuantumSet) (args : list Quantum) (h : store)
    (xs : list Quantum) :
  h !! _set this = Some xs ->
  push this args h = Done tt (<[_set this := xs ++ args]> h).
Proof.
  intros Hset. unfold push, Array_push_apply, bind.
  now rewrite (elements_done _ _ _ Hset).
Qed.

Lemma QuantumSet_millis_done (this : QuantumSet) (h : store)
    (xs : list Quantum) :
  h !! _set this = Some xs ->
  QuantumSet_millis this h = Done (total_millis xs) h.
Proof.
  intros Hset. unfold QuantumSet_millis, bind.
  now rewrite (elements_done _ _ _ Hset).
Qed.



(** X11: two pushes in a row do what one push of the two argument lists,
    one after the other, does. *)
Theorem push_twice (this : QuantumSet) (args1 args2 : list Quantum)
    (h : store) :
  (let* _ := push this args1 in push this args2) h
  = push this (args1 ++ args2) h.
Proof.
  destruct (h !! _set this) as [xs | ] eqn:Hset.
  - unfold bind at 1. rewrite (push_done _ _ _ _ Hset).
    rewrite (push_done _ _ _ (xs ++ args1)) by apply lookup_insert_eq.
    rewrite (push_done _ _ _ _ Hset), insert_insert_eq, app_assoc.
    reflexivity.
  - unfold push, Array_push_apply, bind, elements. now rewrite Hset.
Qed.

(** X12: a new QuantumSet owns a new backing array, one no array of the
    store is, holding exactly the given Quanta in their order, and none
    when the argument is omitted; the arrays of the store are untouched. *)
Theorem new_QuantumSet_owns (args : option (list Quantum)) (h : store) :
  exists (this : QuantumSet) (h' : store),
    new_QuantumSet args h = Done this h' /\
    h !! _set this = None /\
    h' !! _set this = Some (default [] args) /\
    (forall (l : loc) (zs : list Quantum), h !! l = Some zs -> h' !! l = Some zs) /\
    QuantumSet_millis this h' = Done (total_millis (default [] args)) h'.
Proof.
  assert (Hkeep : forall (zs0 : list Quantum) l zs, h !! l = Some zs ->
            <[fresh (dom h) := zs0]> h !! l = Some zs).
  { intros zs0 l zs Hl. rewrite lookup_insert_ne; [exact Hl |].
    intros E. now apply (fresh_differs h _ _ Hl). }
  destruct args as [args | ].
  - exists (mkQuantumSet (fresh (dom h))), (<[fresh (dom h) := args]> h).
    split; [apply new_QuantumSet_done |].
    split; [apply fresh_unused |]. split; [apply lookup_insert_eq |].
    split; [apply Hkeep |]. apply QuantumSet_millis_done, lookup_insert_eq.
  - exists (mkQuantumSet (fresh (dom h))), (<[fresh (dom h) := []]> h).
    split; [reflexivity |].
    split; [apply fresh_unused |]. split; [apply lookup_insert_eq |].
    split; [apply Hkeep |]. apply QuantumSet_millis_done, lookup_insert_eq.
Qed.

(** ** More on the result of [disjoint] *)

(** X13: on a non-empty collection [disjoint] returns at least one Quantum
    and no more than the collection holds, and only intervals when the
    collection holds only intervals. *)
Theorem disjoint_size (host : host_sort) (this : QuantumSet) (mono : bool)
    (h : store) (xs : list Quantum) :
  ecma_sort host ->
  h !! _set this = Some xs -> xs <> [] ->
  exists (out : loc) (h' : store) (ys : list Quantum),
    disjoint host this mono h = Done out h' /\ h' !! out = Some ys /\
    (1 <= length ys <= length xs)%nat /\
    (Forall well_formed xs -> Forall well_formed ys).
Proof.
  intros Hhost Hset Hxs.
  destruct (swept_nonempty host mono xs Hhost Hxs) as (y & ys & Hswept).
  destruct (disjoint_frame host this mono h xs y ys Hset Hswept)
    as (out & h' & Hrun & Hout & _).
  assert (Hperm : xs ≡ₚ y :: ys).
  { rewrite <- Hswept. destruct mono; simpl; [reflexivity |].
    apply (Hhost this_compare xs). }
  exists out, h', (cover y ys).
  split; [exact Hrun |]. split; [exact Hout |]. split.
  - rewrite (Permutation_length Hperm). apply cover_length.
  - intros Hwf. rewrite Hperm in Hwf.
    apply Forall_cons_1 in Hwf as [Hy Hys]. now apply cover_well_formed.
Qed.

Lemma disjoint_size_witness :
  let xs := [mkQuantum 3 9; mkQuantum 1 2; mkQuantum 2 5] in
  let h : store := {[ 0%nat := xs ]} in
  exists (out : loc) (h' : store) (ys : list Quantum),
    disjoint sort_gt (mkQuantumSet 0%nat) false h = Done out h' /\
    h' !! out = Some ys /\
    (1 <= length ys <= length xs)%nat /\
    (Forall well_formed xs -> Forall well_formed ys).
Proof.
  intros xs h.
  apply (disjoint_size sort_gt (mkQuantumSet 0%nat) false h xs sort_gt_ecma);
    [reflexivity | discriminate].
Defined.

(** X14: when the collection holds only intervals and the swept sequence
    is ordered by start, each Quantum [disjoint] returns stops strictly
    before the next one starts: the returned intervals do not even touch. *)
Theorem disjoint_separated (host : host_sort) (this : QuantumSet)
    (mono : bool) (h : store) (xs : list Quantum) :
  ecma_sort host ->
  h !! _set this = Some xs -> xs <> [] ->
  Forall well_formed xs ->
  ordered_by_start (swept host mono xs) ->
  exists (out : loc) (h' : store) (ys : list Quantum),
    disjoint host this mono h = Done out h' /\ h' !! out = Some ys /\
    chain (fun a b => stop a < start b) ys.
Proof.
  intros Hhost Hset Hxs Hwf Hord.
  destruct (swept_nonempty host mono xs Hhost Hxs) as (y & ys & Hswept).
  destruct (disjoint_frame host this mono h xs y ys Hset Hswept)
    as (out & h' & Hrun & Hout & _).
  assert (Hperm : xs ≡ₚ y :: ys).
  { rewrite <- Hswept. destruct mono; simpl; [reflexivity |].
    apply (Hhost this_compare xs). }
  exists out, h', (cover y ys). rewrite Hswept in Hord.
  split; [exact Hrun |]. split; [exact Hout |].
  rewrite Hperm in Hwf. apply Forall_cons_1 in Hwf as [Hy Hys].
  now apply cover_separated.
Qed.

Lemma disjoint_separated_witness :
  let xs := [mkQuantum 7 9; mkQuantum 1 2; mkQuantum 2 5] in
  let h : store := {[ 0%nat := xs ]} in
  exists (out : loc) (h' : store) (ys : list Quantum),
    disjoint sort_gt (mkQuantumSet 0%nat) false h = Done out h' /\
    h' !! out = Some ys /\
    chain (fun a b => stop a < start b) ys.
Proof.
  intros xs h.
  apply (disjoint_separated sort_gt (mkQuantumSet 0%nat) false h xs
           sort_gt_ecma);
    [ reflexivity | discriminate
    | repeat constructor; unfold well_formed; simpl; lia
    | now apply ordered_by_start_test ].
Defined.

(** ** Installing the cover with [set] *)

Lemma install_disjoint_done (host : host_sort) (s : QuantumSet) (mono : bool)
    (h : store) (xs : list Quantum) (y : Quantum) (ys : list Quantum) :
  h !! _set s = Some xs ->
  swept host mono xs = y :: ys ->
  exists (s' : QuantumSet) (h' : store),
    install_disjoint host s mono h = Done s' h' /\
    h' !! _set s' = Some (cover y ys) /\
    h !! _set s' = None /\
    h' !! _set s = Some xs.
Proof.
  intros Hset Hswept.
  destruct (disjoint_frame host s mono h xs y ys Hset Hswept)
    as (out & h' & Hrun & Hout & Hnew & Hkeep).
  exists (mkQuantumSet out), h'.
  split; [unfold install_disjoint, bind; now rewrite Hrun |].
  split; [exact Hout |]. split; [exact Hnew | now apply Hkeep].
Qed.



(** X16: once the cover of a non-empty collection of intervals, swept in
    order of start, is installed with [set], [disjoint( true )] returns a
    new array with the very same sequence: the installed cover is a fixed
    point. *)
Theorem disjoint_twice (host : host_sort) (s : QuantumSet) (mono : bool)
    (h : store) (xs : list Quantum) :
  ecma_sort host ->
  h !! _set s = Some xs -> xs <> [] ->
  Forall well_formed xs ->
  ordered_by_start (swept host mono xs) ->
  exists (s' : QuantumSet) (h' : store) (ys : list Quantum),
    install_disjoint host s mono h = Done s' h' /\
    h' !! _set s' = Some ys /\
    exists (out : loc) (h'' : store),
      disjoint host s' true h' = Done out h'' /\
      out <> _set s' /\
      h'' !! out = Some ys /\ h'' !! _set s' = Some ys.
Proof.
  intros Hhost Hset Hxs Hwf Hord.
  destruct (swept_nonempty host mono xs Hhost Hxs) as (y & ys & Hswept).
  destruct (install_disjoint_done host s mono h xs y ys Hset Hswept)
    as (s' & h' & Hrun & Hout & _ & _).
  assert (Hperm : xs ≡ₚ y :: ys).
  { rewrite <- Hswept. destruct mono; simpl; [reflexivity |].
    apply (Hhost this_compare xs). }
  rewrite Hswept in Hord. rewrite Hperm in Hwf.
  apply Forall_cons_1 in Hwf as [Hy Hys].
  pose proof (cover_apart ys y Hy Hys Hord) as Hapart.
  exists s', h', (cover y ys). split; [exact Hrun |]. split; [exact Hout |].
  destruct (cover y ys) as [ | c cs] eqn:Ec.
  { pose proof (cover_length ys y) as Hlen. rewrite Ec in Hlen.
    simpl in Hlen. lia. }
  destruct (disjoint_frame host s' true h' (c :: cs) c cs Hout eq_refl)
    as (out & h'' & Hrun2 & Hout2 & Hnew2 & Hkeep2).
  exists out, h''. split; [exact Hrun2 |].
  split; [intros E; rewrite E, Hout in Hnew2; discriminate Hnew2 |].
  split; [now rewrite Hout2, cover_fixed | now apply Hkeep2].
Qed.

Lemma disjoint_twice_witness :
  let xs := [mkQuantum 7 9; mkQuantum 1 2; mkQuantum 2 5] in
  let h : store := {[ 0%nat := xs ]} in
  let s := mkQuantumSet 0%nat in
  exists (s' : QuantumSet) (h' : store) (ys : list Quantum),
    install_disjoint sort_gt s false h = Done s' h' /\
    h' !! _set s' = Some ys /\
    exists (out : loc) (h'' : store),
      disjoint sort_gt s' true h' = Done out h'' /\
      out <> _set s' /\
      h'' !! out = Some ys /\ h'' !! _set s' = Some ys.
Proof.
  intros xs h s.
  apply (disjoint_twice sort_gt s false h xs sort_gt_ecma);
    [ reflexivity | discriminate
    | repeat constructor; unfold well_formed; simpl; lia
    | now apply ordered_by_start_test ].
Defined.

(** ** The oldest copy's [disjoint] *)

Lemma Legacy_intersect_ordered (q e : Quantum) :
  well_formed q -> start q <= start e ->
  Legacy.intersect q e = intersects q e.
Proof.
  unfold well_formed. intros Hq Hqe. apply eq_true_iff_eq.
  rewrite intersects_true_iff. unfold Legacy.intersect; cbv zeta.
  rewrite andb_true_iff, Z.leb_le, Z.geb_le. lia.
Qed.

(** On intervals ordered by start the one-sided test misses nothing and
    the start of [q1] is the smaller one: the two sweeps agree. *)
Lemma Legacy_sweep_ordered (es : list Quantum) : forall q,
  well_formed q -> Forall well_formed es -> ordered_by_start (q :: es) ->
  Legacy.sweep q es = sweep q es.
Proof.
  induction es as [ | e es IH]; intros q Hq Hes Hord; [reflexivity |].
  apply Forall_cons_1 in Hes as [He Hes]. simpl.
  pose proof Hord as Hord'. apply chain_cons in Hord' as [Hqe Hes'].
  simpl in Hqe. rewrite (Legacy_intersect_ordered q e Hq Hqe).
  destruct (intersects q e).
  - pose proof (ordered_merged q e es Hord) as Hm.
    pose proof (merged_well_formed q e Hq) as Hwm.
    rewrite Z.min_l in Hm, Hwm by exact Hqe.
    rewrite Z.min_l by exact Hqe. now apply IH.
  - now rewrite IH.
Qed.

Lemma Legacy_disjoint_loop_sweep (n : nat) :
  forall (i : nat) (q : Quantum) (acc : list Quantum) (h : store)
         (set out : loc) (xs : list Quantum),
    set <> out -> h !! set = Some xs -> h !! out = Some acc ->
    (i + n)%nat = length xs ->
    Legacy.disjoint_loop n i set out q h
    = Done (Legacy.sweep q (drop i xs)).2
           (<[out := acc ++ (Legacy.sweep q (drop i xs)).1]> h).
Proof.
  induction n as [ | n IH]; intros i q acc h set out xs Hne Hset Hout Hlen.
  - rewrite drop_ge by lia. simpl. rewrite app_nil_r.
    unfold ret. f_equal. symmetry. now apply insert_id.
  - destruct (lookup_lt_is_Some_2 xs i) as [e He]; [lia |].
    rewrite (drop_S _ _ _ He). simpl.
    unfold bind at 1. rewrite (at_index_done _ _ _ _ _ Hset He).
    unfold Legacy.merge; cbv zeta. rewrite new_Quantum_eq.
    destruct (Legacy.intersect q e).
    + cbn [length Z.of_nat Pos.of_succ_nat Z.sub Z.add Z.opp Z.pos_sub Z.eqb].
      unfold bind, ret. simpl.
      apply IH; [assumption .. | lia].
    + unfold bind. simpl.
      rewrite (Array_push_done _ _ _ _ Hout).
      rewrite (IH (S i) e (acc ++ [q]) _ set out xs Hne);
        [ | now rewrite lookup_insert_ne by congruence
          | apply lookup_insert_eq | lia ].
      destruct (Legacy.sweep e (drop (S i) xs)) as [pushed q'] eqn:E. simpl.
      rewrite insert_insert_eq, <- app_assoc. reflexivity.
Qed.

(** The oldest [disjoint] run in a store: with the flag false the backing
    array itself receives the engine's ordering. *)
Lemma Legacy_disjoint_done (host : host_sort) (this : QuantumSet)
    (mono : bool) (h : store) (xs : list Quantum) (y : Quantum)
    (ys : list Quantum) :
  h !! _set this = Some xs ->
  swept host mono xs = y :: ys ->
  let h1 := if mono then h else <[_set this := y :: ys]> h in
  Legacy.disjoint host this mono h
  = Done (this, fresh (dom h1))
         (<[fresh (dom h1) :=
              (Legacy.sweep y ys).1 ++ [(Legacy.sweep y ys).2]]> h1).
Proof.
  intros Hset Hswept h1.
  assert (Hfirst : (if negb mono
                    then (let* a := Legacy.monotonic host this None in
                          ret {| _set := a |})
                    else ret this) h = Done this h1).
  { subst h1. destruct mono; simpl in *; [reflexivity |].
    unfold Legacy.monotonic, Array_sort, assign, bind, ret.
    rewrite (elements_done _ _ _ Hset). simpl. rewrite Hswept.
    now destruct this. }
  assert (Hsw : h1 !! _set this = Some (y :: ys)).
  { subst h1. destruct mono; simpl in *.
    - now rewrite <- Hswept.
    - apply lookup_insert_eq. }
  assert (Hne : _set this <> fresh (dom h1)) by (eapply fresh_differs; eauto).
  unfold Legacy.disjoint. unfold bind at 1. rewrite Hfirst. cbv zeta.
  unfold bind at 1. unfold new_Array at 1.
  set (out := fresh (dom h1)) in *.
  assert (Hsw' : <[out := []]> h1 !! _set this = Some (y :: ys))
    by now rewrite lookup_insert_ne by congruence.
  unfold bind at 1. rewrite (at_index_done _ _ _ 0%nat y Hsw') by reflexivity.
  unfold bind at 1. unfold length_of, bind at 1.
  rewrite (elements_done _ _ _ Hsw'). unfold ret at 1.
  unfold bind at 1.
  rewrite (Legacy_disjoint_loop_sweep _ 1%nat y [] _ (_set this) out (y :: ys)
             Hne Hsw');
    [ | apply lookup_insert_eq | simpl; lia ].
  simpl drop. rewrite drop_0, insert_insert_eq. simpl app.
  unfold bind, ret.
  rewrite (Array_push_done _ _ (Legacy.sweep y ys).1) by apply lookup_insert_eq.
  now rewrite insert_insert_eq.
Qed.

(** X17: [disjoint] of the oldest copy, called with the flag false on a
    non-empty collection, changes the collection itself: afterwards the
    backing array holds the engine's ordering of the elements.  The
    returned array is a new one. *)
Theorem Legacy_disjoint_sorts_backing (host : host_sort) (this : QuantumSet)
    (h : store) (xs : list Quantum) :
  ecma_sort host ->
  h !! _set this = Some xs -> xs <> [] ->
  exists (out : loc) (h' : store),
    Legacy.disjoint host this false h = Done (this, out) h' /\
    h' !! _set this = Some (host this_compare xs) /\
    out <> _set this /\ h !! out = None.
Proof.
  intros Hhost Hset Hxs.
  destruct (swept_nonempty host false xs Hhost Hxs) as (y & ys & Hswept).
  pose proof (Legacy_disjoint_done host this false h xs y ys Hset Hswept)
    as Hrun. cbv zeta in Hrun. simpl in Hswept.
  set (h1 := <[_set this := y :: ys]> h) in *.
  assert (H1 : h1 !! _set this = Some (y :: ys)) by apply lookup_insert_eq.
  pose proof (fresh_differs h1 _ _ H1) as Hne.
  eexists _, _. split; [exact Hrun |].
  split; [now rewrite lookup_insert_ne, Hswept by congruence |].
  split; [congruence |].
  pose proof (fresh_unused h1) as Hnone. subst h1.
  now rewrite lookup_insert_ne in Hnone by congruence.
Qed.

Lemma Legacy_disjoint_sorts_backing_witness :
  let xs := [mkQuantum 3 4; mkQuantum 1 2] in
  let h : store := {[ 0%nat := xs ]} in
  exists (out : loc) (h' : store),
    Legacy.disjoint sort_gt (mkQuantumSet 0%nat) false h
    = Done (mkQuantumSet 0%nat, out) h' /\
    h' !! 0%nat = Some (sort_gt this_compare xs) /\
    out <> 0%nat /\ h !! out = None.
Proof.
  intros xs h.
  apply (Legacy_disjoint_sorts_backing sort_gt (mkQuantumSet 0%nat) h xs
           sort_gt_ecma);
    [reflexivity | discriminate].
Defined.

(** X18: on a non-empty collection of intervals whose swept sequence is
    ordered by start, the oldest copy's [disjoint] returns the same
    sequence as the current one, for either value of the flag. *)
Theorem Legacy_disjoint_agrees (host : host_sort) (this : QuantumSet)
    (mono : bool) (h : store) (xs : list Quantum) :
  ecma_sort host ->
  h !! _set this = Some xs -> xs <> [] ->
  Forall well_formed xs ->
  ordered_by_start (swept host mono xs) ->
  exists (out out' : loc) (h' h'' : store) (ys : list Quantum),
    disjoint host this mono h = Done out h' /\
    Legacy.disjoint host this mono h = Done (this, out') h'' /\
    h' !! out = Some ys /\ h'' !! out' = Some ys.
Proof.
  intros Hhost Hset Hxs Hwf Hord.
  destruct (swept_nonempty host mono xs Hhost Hxs) as (y & ys & Hswept).
  destruct (disjoint_frame host this mono h xs y ys Hset Hswept)
    as (out & h' & Hrun & Hout & _).
  pose proof (Legacy_disjoint_done host this mono h xs y ys Hset Hswept)
    as Hrun'. cbv zeta in Hrun'.
  assert (Hperm : xs ≡ₚ y :: ys).
  { rewrite <- Hswept. destruct mono; simpl; [reflexivity |].
    apply (Hhost this_compare xs). }
  rewrite Hswept in Hord. rewrite Hperm in Hwf.
  apply Forall_cons_1 in Hwf as [Hy Hys].
  eexists out, _, h', _, (cover y ys).
  split; [exact Hrun |]. split; [exact Hrun' |]. split; [exact Hout |].
  rewrite lookup_insert_eq, (Legacy_sweep_ordered ys y Hy Hys Hord).
  reflexivity.
Qed.

Lemma Legacy_disjoint_agrees_witness :
  let xs := [mkQuantum 7 9; mkQuantum 1 2; mkQuantum 2 5] in
  let h : store := {[ 0%nat := xs ]} in
  exists (out out' : loc) (h' h'' : store) (ys : list Quantum),
    disjoint sort_gt (mkQuantumSet 0%nat) false h = Done out h' /\
    Legacy.disjoint sort_gt (mkQuantumSet 0%nat) false h
    = Done (mkQuantumSet 0%nat, out') h'' /\
    h' !! out = Some ys /\ h'' !! out' = Some ys.
Proof.
  intros xs h.
  apply (Legacy_disjoint_agrees sort_gt (mkQuantumSet 0%nat) false h xs
           sort_gt_ecma);
    [ reflexivity | discriminate
    | repeat constructor; unfold well_formed; simpl; lia
    | now apply ordered_by_start_test ].
Defined.

(** ** The runner of the suite *)

Section Runner.
Context {World : Type}.

Lemma Suite_test_loop_failed (s : list (Unit World)) :
  forall (f : list (Unit World)) (w : World),
    (Suite_test_loop s f w).1 = f ++ failing s (verdicts s w).
Proof.
  induction s as [ | t s IH]; intros f w; simpl.
  - now rewrite app_nil_r.
  - destruct (fn t w) as [passed w'] eqn:E. simpl. rewrite IH.
    destruct passed; simpl; [reflexivity |]. now rewrite <- app_assoc.
Qed.

Lemma failing_none (s : list (Unit World)) : forall w : World,
  failing s (verdicts s w) = [] <-> Forall (fun b => b = true) (verdicts s w).
Proof.
  induction s as [ | t s IH]; intros w; simpl.
  - split; [constructor | reflexivity].
  - destruct (fn t w).1 eqn:E.
    + rewrite IH. split; [now constructor |].
      intros H. now apply Forall_cons_1 in H as [_ H].
    + split; [discriminate |].
      intros H. apply Forall_cons_1 in H as [H _]. discriminate H.
Qed.

(** X19: [test] keeps the registered tests, adds to the failed ones, after
    those already there, exactly the tests that answer [false], in the
    order they ran, and answers [true] only when no failure was recorded
    before and every test passes: an earlier failure makes every later
    [test] answer [false] until [reset]. *)
Theorem Suite_test_accumulates (this : Suite World) (w : World) :
  let this' := (Suite_test this w).1.2 in
  let answers := verdicts (_tests this) w in
  _tests this' = _tests this /\
  Suite_failed this' = Suite_failed this ++ failing (_tests this) answers /\
  ((Suite_test this w).1.1 = true <->
     Suite_failed this = [] /\ Forall (fun b => b = true) answers) /\
  ((Suite_test (Suite_reset this) w).1.1 = true <->
     Forall (fun b => b = true) answers).
Proof.
  assert (H : forall this0 : Suite World,
    (Suite_test this0 w).1.2
      = {| _tests := _tests this0;
           _failed := _failed this0
                      ++ failing (_tests this0) (verdicts (_tests this0) w) |}
    /\ ((Suite_test this0 w).1.1 = true <->
          _failed this0 = [] /\
          Forall (fun b => b = true) (verdicts (_tests this0) w))).
  { intros this0. unfold Suite_test.
    pose proof (Suite_test_loop_failed (_tests this0) (_failed this0) w) as Hf.
    destruct (Suite_test_loop (_tests this0) (_failed this0) w) as [f w'].
    simpl in *. subst f. split; [reflexivity |].
    rewrite Nat.eqb_eq, length_zero_iff_nil.
    rewrite <- failing_none. split.
    - intros E. now apply app_eq_nil in E.
    - intros [-> ->]. reflexivity. }
  cbv zeta. destruct (H this) as [Hthis Hok].
  destruct (H (Suite_reset this)) as [_ Hreset]. simpl in Hreset.
  rewrite Hthis. unfold Suite_failed. simpl.
  split; [reflexivity |]. split; [reflexivity |]. split; [exact Hok |].
  rewrite Hreset. tauto.
Qed.
End Runner.

(** ** The copy in between *)

(** X20: the [merge] of the copy in between returns what the current
    [merge] returns whenever its first argument starts no later than the
    second, or the two do not intersect; only the start of an intersecting
    pair given in the other order is lost. *)
Theorem Interim_merge_agrees (q1 q2 : Quantum) :
  start q1 <= start q2 \/ intersects q1 q2 = false ->
  Interim.merge q1 q2 = merge q1 q2.
Proof.
  unfold Interim.merge, merge; cbv zeta. intros [Hle | Hno].
  - now rewrite Z.min_l.
  - now rewrite Hno.
Qed.

Lemma Interim_merge_agrees_witness :
  Interim.merge (mkQuantum 123 6789) (mkQuantum 543 2345)
  = merge (mkQuantum 123 6789) (mkQuantum 543 2345).
Proof.
  apply (Interim_merge_agrees (mkQuantum 123 6789) (mkQuantum 543 2345)).
  left. simpl. lia.
Defined.
